(** * Bounce-Beats: the entity, command and history layer

    A shallow embedding of [public/src/physics.js] (the [Line] and [Ball]
    wrappers around Matter bodies), [public/src/EntityManager.js],
    [public/src/commands.js] and [public/src/CommandHistory.js], with the
    parts of [public/src/InteractionController.js], [public/src/game.js] and
    [public/src/constants.js] that drive them (Backspace, delete and move of
    a selection, the mouse wheel, the fixed-step physics loop and the
    collision cooldown).

    Modelling choices:
    - JS numbers are exact rationals [Q]; the claims are checked over exact
      arithmetic.
    - [Line] and spawner objects are shared by reference (the manager's
      arrays, the commands and the UI all hold the same object), so they live
      in heaps [gmap nat _] indexed by an object identity; the manager's
      arrays are lists of identities.  Balls are never aliased and are kept
      by value.
    - The Matter world is the list of its bodies, in insertion order.
      [Matter.World.add] appends a body, [Matter.World.remove] removes the
      first occurrence of that body object; a body's identity is its
      [body_id] (Matter's [Common.nextId()]).
    - [Math.hypot(a, b) < m] is decided exactly as [0 < m /\ a*a + b*b < m*m]. *)

From Stdlib Require Import QArith Qminmax Qround Lia Lqa.
From stdpp Require Import base list gmap.
From Stdlib Require String.

Open Scope Q_scope.
Set Warnings "-register-all".

(** ** Constants ([constants.js]) *)

Definition lineThickness : Q := 12.
Definition ballRadius : Q := 8.
Definition ENTITY_minLineLength : Q := 50.
Definition ENTITY_spawnerIntervalMs : Q := 1500.

(** Strict comparison of JS numbers. *)
Definition Qlt_bool (a b : Q) : bool := negb (Qle_bool b a).

(** [Math.hypot(a, b) < m], exactly. *)
Definition hypot_lt (a b m : Q) : bool :=
  Qlt_bool 0 m && Qlt_bool (a * a + b * b) (m * m).

(** ** Physics ([physics.js]) *)

(** A Matter body.  A line body is the rectangle [Bodies.rectangle(centerX,
    centerY, length, thickness, {angle})]; its length [Math.hypot(dx, dy)]
    and angle [Math.atan2(dy, dx)] are functions of the vector [(dx, dy)]
    from the first to the second endpoint, which is what is stored. *)
Inductive Shape :=
| Rect (cx cy dx dy thickness : Q)
| Circle (cx cy radius : Q).

Record Body := mkBody { body_id : nat; body_shape : Shape }.

(** [PhysicsEngine.addBody] / [removeBody]. *)
Definition addBody (b : Body) (w : list Body) : list Body := w ++ [b].

Fixpoint removeBody (b : Body) (w : list Body) : list Body :=
  match w with
  | [] => []
  | b' :: w' => if Nat.eqb (body_id b') (body_id b) then w' else b' :: removeBody b w'
  end.

(** The body built by [new Line(...)] and [Line.updatePosition]. *)
Definition line_shape (x1 y1 x2 y2 : Q) : Shape :=
  Rect ((x1 + x2) / 2) ((y1 + y2) / 2) (x2 - x1) (y2 - y1) lineThickness.

Record Line := mkLine { x1 : Q; y1 : Q; x2 : Q; y2 : Q; lbody : Body }.

Record Ball := mkBall { ball_body : Body }.

Record Spawner := mkSpawner { sx : Q; sy : Q; lastSpawn : Q; interval : Q }.

Inductive Endpoint := EpStart | EpEnd.

(** [Line.distanceToPoint], squared: [Math.hypot(x - projX, y - projY)] is
    the square root of the returned value. *)
Definition distSqToPoint (l : Line) (x y : Q) : Q :=
  let dx := x2 l - x1 l in
  let dy := y2 l - y1 l in
  let lengthSq := dx * dx + dy * dy in
  if Qeq_bool lengthSq 0 then (x - x1 l) * (x - x1 l) + (y - y1 l) * (y - y1 l)
  else
    let t0 := ((x - x1 l) * dx + (y - y1 l) * dy) / lengthSq in
    let t := Qmax 0 (Qmin 1 t0) in
    let projX := x1 l + t * dx in
    let projY := y1 l + t * dy in
    (x - projX) * (x - projX) + (y - projY) * (y - projY).

(** [Line.distanceToPoint(x, y) < threshold]. *)
Definition line_within (l : Line) (x y th : Q) : bool :=
  Qlt_bool 0 th && Qlt_bool (distSqToPoint l x y) (th * th).

(** [Line.distanceToEndpoint(x, y, endpoint) < threshold]. *)
Definition endpoint_within (l : Line) (ep : Endpoint) (x y th : Q) : bool :=
  match ep with
  | EpStart => hypot_lt (x - x1 l) (y - y1 l) th
  | EpEnd => hypot_lt (x - x2 l) (y - y2 l) th
  end.

(** ** The entity manager ([EntityManager.js]) *)

Record EM := mkEM {
  lheap : gmap nat Line;        (* Line objects, by identity *)
  sheap : gmap nat Spawner;     (* spawner objects, by identity *)
  lines : list nat;             (* this.lines *)
  balls : list Ball;            (* this.balls *)
  spawners : list nat;          (* this.spawners *)
  world : list Body;            (* this.physics.world.bodies *)
  next_obj : nat;               (* next fresh object identity *)
  next_body : nat               (* Matter's Common.nextId() *)
}.

Definition emptyEM : EM := mkEM ∅ ∅ [] [] [] [] 0 0.

Definition set_lheap (h : gmap nat Line) (s : EM) : EM :=
  mkEM h (sheap s) (lines s) (balls s) (spawners s) (world s) (next_obj s) (next_body s).
Definition set_sheap (h : gmap nat Spawner) (s : EM) : EM :=
  mkEM (lheap s) h (lines s) (balls s) (spawners s) (world s) (next_obj s) (next_body s).
Definition set_lines (l : list nat) (s : EM) : EM :=
  mkEM (lheap s) (sheap s) l (balls s) (spawners s) (world s) (next_obj s) (next_body s).
Definition set_balls (l : list Ball) (s : EM) : EM :=
  mkEM (lheap s) (sheap s) (lines s) l (spawners s) (world s) (next_obj s) (next_body s).
Definition set_spawners (l : list nat) (s : EM) : EM :=
  mkEM (lheap s) (sheap s) (lines s) (balls s) l (world s) (next_obj s) (next_body s).
Definition set_world (w : list Body) (s : EM) : EM :=
  mkEM (lheap s) (sheap s) (lines s) (balls s) (spawners s) w (next_obj s) (next_body s).

(** Allocation of a fresh object identity and a fresh Matter body. *)
Definition alloc_obj (s : EM) : nat * EM :=
  (next_obj s, mkEM (lheap s) (sheap s) (lines s) (balls s) (spawners s) (world s)
                    (S (next_obj s)) (next_body s)).
Definition alloc_body (sh : Shape) (s : EM) : Body * EM :=
  (mkBody (next_body s) sh,
   mkEM (lheap s) (sheap s) (lines s) (balls s) (spawners s) (world s)
        (next_obj s) (S (next_body s))).

(** [_removeFromArray(array, item)]: [indexOf] then [splice(index, 1)]. *)
Fixpoint removeFromArray (i : nat) (l : list nat) : list nat :=
  match l with
  | [] => []
  | j :: l' => if Nat.eqb j i then l' else j :: removeFromArray i l'
  end.

(** [new Line(x1, y1, x2, y2)]. *)
Definition newLine (a b c d : Q) (s : EM) : nat * Line * EM :=
  let '(bd, s1) := alloc_body (line_shape a b c d) s in
  let '(id, s2) := alloc_obj s1 in
  let l := mkLine a b c d bd in
  (id, l, set_lheap (<[id := l]> (lheap s2)) s2).

(** [addLine(x1, y1, x2, y2)]: [None] is the [null] return. *)
Definition addLine (a b c d : Q) (s : EM) : option nat * EM :=
  if hypot_lt (c - a) (d - b) ENTITY_minLineLength then (None, s)
  else
    let '(id, l, s1) := newLine a b c d s in
    let s2 := set_lines (lines s1 ++ [id]) s1 in
    (Some id, set_world (addBody (lbody l) (world s2)) s2).

(** [removeLine(line)]; [None] is [null]. *)
Definition removeLine (line : option nat) (s : EM) : EM :=
  match line with
  | None => s
  | Some id =>
      match lheap s !! id with
      | Some l =>
          let s1 := set_world (removeBody (lbody l) (world s)) s in
          set_lines (removeFromArray id (lines s1)) s1
      | None => s
      end
  end.

(** [_clearPhysicsEntities(this.lines)] then [this.lines = []]. *)
Definition clearLines (s : EM) : EM :=
  let w := fold_left (fun w id =>
             match lheap s !! id with
             | Some l => removeBody (lbody l) w
             | None => w
             end) (lines s) (world s) in
  set_lines [] (set_world w s).

(** [line.updatePosition(x1, y1, x2, y2)]: mutates the shared Line object
    and returns its old and new bodies. *)
Definition updatePosition (id : nat) (a b c d : Q) (s : EM)
  : option (Body * Body) * EM :=
  match lheap s !! id with
  | None => (None, s)
  | Some l =>
      let '(nb, s1) := alloc_body (line_shape a b c d) s in
      (Some (lbody l, nb), set_lheap (<[id := mkLine a b c d nb]> (lheap s1)) s1)
  end.

(** The body swap shared by [updateLineEndpoint] and [updateLinePosition]. *)
Definition swapBodies (r : option (Body * Body)) (s : EM) : EM :=
  match r with
  | Some (oldBody, newBody) =>
      set_world (addBody newBody (removeBody oldBody (world s))) s
  | None => s
  end.

Definition updateLineEndpoint (id : nat) (ep : Endpoint) (x y : Q) (s : EM) : EM :=
  match lheap s !! id with
  | None => s
  | Some l =>
      let '(r, s1) :=
        match ep with
        | EpStart => updatePosition id x y (x2 l) (y2 l) s
        | EpEnd => updatePosition id (x1 l) (y1 l) x y s
        end in
      swapBodies r s1
  end.

Definition updateLinePosition (id : nat) (a b c d : Q) (s : EM) : EM :=
  let '(r, s1) := updatePosition id a b c d s in swapBodies r s1.

(** [findNearestLine(x, y, threshold)]. *)
Fixpoint findNearestLine_aux (h : gmap nat Line) (ls : list nat) (x y th : Q)
  : option nat :=
  match ls with
  | [] => None
  | id :: ls' =>
      match h !! id with
      | Some l => if line_within l x y th then Some id
                  else findNearestLine_aux h ls' x y th
      | None => findNearestLine_aux h ls' x y th
      end
  end.
Definition findNearestLine (x y th : Q) (s : EM) : option nat :=
  findNearestLine_aux (lheap s) (lines s) x y th.

(** [findNearestEndpoint(x, y, threshold)]. *)
Fixpoint findNearestEndpoint_aux (h : gmap nat Line) (ls : list nat) (x y th : Q)
  : option (nat * Endpoint) :=
  match ls with
  | [] => None
  | id :: ls' =>
      match h !! id with
      | Some l =>
          if endpoint_within l EpStart x y th then Some (id, EpStart)
          else if endpoint_within l EpEnd x y th then Some (id, EpEnd)
          else findNearestEndpoint_aux h ls' x y th
      | None => findNearestEndpoint_aux h ls' x y th
      end
  end.
Definition findNearestEndpoint (x y th : Q) (s : EM) : option (nat * Endpoint) :=
  findNearestEndpoint_aux (lheap s) (lines s) x y th.

(** [addBall(x, y)]: [new Ball(x, y)] is a circle body of radius 8. *)
Definition addBall (x y : Q) (s : EM) : EM :=
  let '(bd, s1) := alloc_body (Circle x y ballRadius) s in
  set_world (addBody bd (world s1)) (set_balls (balls s1 ++ [mkBall bd]) s1).

(** [interval || this.config.spawnerInterval]: [null], [undefined] and [0]
    fall back to the configured interval. *)
Definition or_default (i : option Q) : Q :=
  match i with
  | Some v => if Qeq_bool v 0 then ENTITY_spawnerIntervalMs else v
  | None => ENTITY_spawnerIntervalMs
  end.

(** [addSpawner(x, y, interval = null)]. *)
Definition addSpawner (x y : Q) (ival : option Q) (s : EM) : nat * EM :=
  let '(id, s1) := alloc_obj s in
  let sp := mkSpawner x y 0 (or_default ival) in
  (id, set_spawners (spawners s1 ++ [id]) (set_sheap (<[id := sp]> (sheap s1)) s1)).

Definition removeSpawner (sp : option nat) (s : EM) : EM :=
  match sp with
  | None => s
  | Some id => set_spawners (removeFromArray id (spawners s)) s
  end.

Definition clearSpawners (s : EM) : EM := set_spawners [] s.

(** [findNearestSpawner(x, y, threshold)]. *)
Fixpoint findNearestSpawner_aux (h : gmap nat Spawner) (ss : list nat) (x y th : Q)
  : option nat :=
  match ss with
  | [] => None
  | id :: ss' =>
      match h !! id with
      | Some sp => if hypot_lt (sx sp - x) (sy sp - y) th then Some id
                   else findNearestSpawner_aux h ss' x y th
      | None => findNearestSpawner_aux h ss' x y th
      end
  end.
Definition findNearestSpawner (x y th : Q) (s : EM) : option nat :=
  findNearestSpawner_aux (sheap s) (spawners s) x y th.

(** The test [now - spawner.lastSpawn > interval] of [updateSpawners]. *)
Definition spawner_due (now : Q) (sp : Spawner) : bool :=
  Qlt_bool (or_default (Some (interval sp))) (now - lastSpawn sp).

(** [updateSpawners(now)]: [forEach] over the spawners array. *)
Definition updateSpawner_step (now : Q) (s : EM) (id : nat) : EM :=
  match sheap s !! id with
  | Some sp =>
      if spawner_due now sp then
        let s1 := addBall (sx sp) (sy sp) s in
        set_sheap (<[id := mkSpawner (sx sp) (sy sp) now (interval sp)]> (sheap s1)) s1
      else s
  | None => s
  end.

Definition updateSpawners (now : Q) (s : EM) : EM :=
  fold_left (updateSpawner_step now) (spawners s) s.

(** [scaleMultiple(lines, spawners, oldBounds, newBounds)]. *)
Record Bounds := mkBounds { minX : Q; minY : Q; maxX : Q; maxY : Q }.

Definition scale_coord (newMin oldMin sc v : Q) : Q := newMin + (v - oldMin) * sc.

(** One iteration of [lines.forEach] in [scaleMultiple]. *)
Definition scaleLine_step (ob nb : Bounds) (scaleX scaleY : Q) (s : EM) (id : nat) : EM :=
  match lheap s !! id with
  | Some l =>
      updateLinePosition id
        (scale_coord (minX nb) (minX ob) scaleX (x1 l))
        (scale_coord (minY nb) (minY ob) scaleY (y1 l))
        (scale_coord (minX nb) (minX ob) scaleX (x2 l))
        (scale_coord (minY nb) (minY ob) scaleY (y2 l)) s
  | None => s
  end.

(** One iteration of [spawners.forEach] in [scaleMultiple]. *)
Definition scaleSpawner_step (ob nb : Bounds) (scaleX scaleY : Q) (s : EM) (id : nat) : EM :=
  match sheap s !! id with
  | Some sp =>
      set_sheap (<[id := mkSpawner (scale_coord (minX nb) (minX ob) scaleX (sx sp))
                                   (scale_coord (minY nb) (minY ob) scaleY (sy sp))
                                   (lastSpawn sp) (interval sp)]> (sheap s)) s
  | None => s
  end.

Definition scaleMultiple (ls ss : list nat) (ob nb : Bounds) (s : EM) : EM :=
  let scaleX := (maxX nb - minX nb) / (maxX ob - minX ob) in
  let scaleY := (maxY nb - minY nb) / (maxY ob - minY ob) in
  let s1 := fold_left (scaleLine_step ob nb scaleX scaleY) ls s in
  fold_left (scaleSpawner_step ob nb scaleX scaleY) ss s1.

(** ** Commands ([commands.js]) *)

(** The fields a command reads from the live entities or fills in while it
    runs: [AddLineCommand.line] and [AddSpawnerCommand.spawner] start
    [null] and hold what [execute] created; [RemoveLineCommand.line] and
    [RemoveSpawnerCommand.spawner] are overwritten by [undo] with the
    recreated object; [ClearAllCommand] snapshots the manager in [execute]. *)
Inductive Command :=
| AddLineCommand (x1 y1 x2 y2 : Q) (line : option nat)
| RemoveLineCommand (line : option nat) (x1 y1 x2 y2 : Q)
| MoveLineEndpointCommand (line : nat) (endpoint : Endpoint) (newX newY oldX oldY : Q)
| MoveLineCommand (line : nat) (oldX1 oldY1 oldX2 oldY2 newX1 newY1 newX2 newY2 : Q)
| AddSpawnerCommand (x y : Q) (spawner : option nat)
| RemoveSpawnerCommand (spawner : option nat) (x y : Q)
| BatchCommand (commands : list Command)
| ClearAllCommand (lines spawners : list nat)
                  (lineData : list (Q * Q * Q * Q)) (spawnerData : list (Q * Q)).

Definition line_data (h : gmap nat Line) (id : nat) : option (Q * Q * Q * Q) :=
  match h !! id with
  | Some l => Some (x1 l, y1 l, x2 l, y2 l)
  | None => None
  end.

Definition spawner_data (h : gmap nat Spawner) (id : nat) : option (Q * Q) :=
  match h !! id with
  | Some sp => Some (sx sp, sy sp)
  | None => None
  end.

(** [cmd.execute()]: the command object after the call, and the manager. *)
Fixpoint execute (cmd : Command) (s : EM) {struct cmd} : Command * EM :=
  match cmd with
  | AddLineCommand a b c d _ =>
      let '(r, s') := addLine a b c d s in (AddLineCommand a b c d r, s')
  | RemoveLineCommand l _ _ _ _ => (cmd, removeLine l s)
  | MoveLineEndpointCommand l ep nx ny _ _ => (cmd, updateLineEndpoint l ep nx ny s)
  | MoveLineCommand l _ _ _ _ nx1 ny1 nx2 ny2 =>
      (cmd, updateLinePosition l nx1 ny1 nx2 ny2 s)
  | AddSpawnerCommand x y _ =>
      let '(id, s') := addSpawner x y None s in (AddSpawnerCommand x y (Some id), s')
  | RemoveSpawnerCommand sp _ _ => (cmd, removeSpawner sp s)
  | BatchCommand cs =>
      let '(cs', s') :=
        (fix go (cs : list Command) (s : EM) : list Command * EM :=
           match cs with
           | [] => ([], s)
           | c :: cs1 =>
               let '(c', s1) := execute c s in
               let '(cs1', s2) := go cs1 s1 in (c' :: cs1', s2)
           end) cs s in
      (BatchCommand cs', s')
  | ClearAllCommand _ _ _ _ =>
      let ls := lines s in
      let ss := spawners s in
      let ld := omap (line_data (lheap s)) ls in
      let sd := omap (spawner_data (sheap s)) ss in
      (ClearAllCommand ls ss ld sd, clearSpawners (clearLines s))
  end.

(** [cmd.undo()]; [BatchCommand] undoes its commands in reverse order. *)
Fixpoint undo (cmd : Command) (s : EM) {struct cmd} : Command * EM :=
  match cmd with
  | AddLineCommand _ _ _ _ r =>
      (cmd, match r with Some id => removeLine (Some id) s | None => s end)
  | RemoveLineCommand _ a b c d =>
      let '(r, s') := addLine a b c d s in (RemoveLineCommand r a b c d, s')
  | MoveLineEndpointCommand l ep _ _ ox oy => (cmd, updateLineEndpoint l ep ox oy s)
  | MoveLineCommand l ox1 oy1 ox2 oy2 _ _ _ _ =>
      (cmd, updateLinePosition l ox1 oy1 ox2 oy2 s)
  | AddSpawnerCommand _ _ r =>
      (cmd, match r with Some id => removeSpawner (Some id) s | None => s end)
  | RemoveSpawnerCommand _ x y =>
      let '(id, s') := addSpawner x y None s in (RemoveSpawnerCommand (Some id) x y, s')
  | BatchCommand cs =>
      let '(cs', s') :=
        (fix go (cs : list Command) (s : EM) : list Command * EM :=
           match cs with
           | [] => ([], s)
           | c :: cs1 =>
               let '(cs1', s1) := go cs1 s in
               let '(c', s2) := undo c s1 in (c' :: cs1', s2)
           end) cs s in
      (BatchCommand cs', s')
  | ClearAllCommand _ _ ld sd =>
      let s1 := fold_left (fun s '(a, b, c, d) => snd (addLine a b c d s)) ld s in
      (cmd, fold_left (fun s '(x, y) => snd (addSpawner x y None s)) sd s1)
  end.

(** Constructing a command from the live entities ([new XCommand(entities,
    ...)]), as the interaction controller does right before running it.
    An identity always denotes an allocated object; the default line is
    never read for one. *)
Inductive Action :=
| NewAddLine (x1 y1 x2 y2 : Q)
| NewRemoveLine (line : nat)
| NewMoveLineEndpoint (line : nat) (endpoint : Endpoint) (newX newY : Q)
| NewMoveLine (line : nat) (newX1 newY1 newX2 newY2 : Q)
| NewAddSpawner (x y : Q)
| NewRemoveSpawner (spawner : nat)
| NewClearAll.

Definition default_line : Line := mkLine 0 0 0 0 (mkBody 0 (Circle 0 0 0)).
Definition default_spawner : Spawner := mkSpawner 0 0 0 0.

Definition line_obj (s : EM) (id : nat) : Line :=
  match lheap s !! id with Some l => l | None => default_line end.
Definition spawner_obj (s : EM) (id : nat) : Spawner :=
  match sheap s !! id with Some sp => sp | None => default_spawner end.

Definition build (a : Action) (s : EM) : Command :=
  match a with
  | NewAddLine a b c d => AddLineCommand a b c d None
  | NewRemoveLine id =>
      let l := line_obj s id in RemoveLineCommand (Some id) (x1 l) (y1 l) (x2 l) (y2 l)
  | NewMoveLineEndpoint id ep x y =>
      let l := line_obj s id in
      match ep with
      | EpStart => MoveLineEndpointCommand id ep x y (x1 l) (y1 l)
      | EpEnd => MoveLineEndpointCommand id ep x y (x2 l) (y2 l)
      end
  | NewMoveLine id a b c d =>
      let l := line_obj s id in
      MoveLineCommand id (x1 l) (y1 l) (x2 l) (y2 l) a b c d
  | NewAddSpawner x y => AddSpawnerCommand x y None
  | NewRemoveSpawner id =>
      let sp := spawner_obj s id in RemoveSpawnerCommand (Some id) (sx sp) (sy sp)
  | NewClearAll => ClearAllCommand [] [] [] []
  end.

(** ** Command history ([CommandHistory.js]) *)

Record History := mkHistory {
  undoStack : list Command;
  redoStack : list Command;
  maxHistorySize : nat
}.

(** [new CommandHistory(maxHistorySize = 100)]. *)
Definition newHistory (maxHistorySize : nat) : History := mkHistory [] [] maxHistorySize.
Definition defaultHistory : History := newHistory 100.

(** [Array.prototype.pop]: the last element and the rest. *)
Definition pop {A} (l : list A) : option (A * list A) :=
  match rev l with
  | [] => None
  | x :: r => Some (x, rev r)
  end.

(** [history.execute(command)]. *)
Definition history_execute (cmd : Command) (s : EM) (h : History) : EM * History :=
  let '(cmd', s') := execute cmd s in
  let u := undoStack h ++ [cmd'] in
  let u' := if Nat.ltb (maxHistorySize h) (length u) then tail u else u in
  (s', mkHistory u' [] (maxHistorySize h)).

(** [history.undo()]. *)
Definition history_undo (s : EM) (h : History) : bool * EM * History :=
  match pop (undoStack h) with
  | None => (false, s, h)
  | Some (cmd, u) =>
      let '(cmd', s') := undo cmd s in
      (true, s', mkHistory u (redoStack h ++ [cmd']) (maxHistorySize h))
  end.

(** [history.redo()]. *)
Definition history_redo (s : EM) (h : History) : bool * EM * History :=
  match pop (redoStack h) with
  | None => (false, s, h)
  | Some (cmd, r) =>
      let '(cmd', s') := execute cmd s in
      (true, s', mkHistory (undoStack h ++ [cmd']) r (maxHistorySize h))
  end.

(** A sequence of commands, each built from the live state and run through
    [history.execute]. *)
Fixpoint run_actions (acts : list Action) (s : EM) (h : History) : EM * History :=
  match acts with
  | [] => (s, h)
  | a :: acts' =>
      let '(s1, h1) := history_execute (build a s) s h in run_actions acts' s1 h1
  end.

(** [undo()] (resp. [redo()]) called [n] times. *)
Fixpoint undo_times (n : nat) (s : EM) (h : History) : EM * History :=
  match n with
  | O => (s, h)
  | S n' => let '(_, s1, h1) := history_undo s h in undo_times n' s1 h1
  end.

Fixpoint redo_times (n : nat) (s : EM) (h : History) : EM * History :=
  match n with
  | O => (s, h)
  | S n' => let '(_, s1, h1) := history_redo s h in redo_times n' s1 h1
  end.

(** What the claims observe of the manager: the endpoints of the lines and
    the positions of the spawners, in collection order. *)
Definition line_view (s : EM) : list (Q * Q * Q * Q) := omap (line_data (lheap s)) (lines s).
Definition spawner_view (s : EM) : list (Q * Q) := omap (spawner_data (sheap s)) (spawners s).

(** ** Basic facts *)

Lemma Qlt_bool_iff (a b : Q) : Qlt_bool a b = true <-> a < b.
Proof.
  unfold Qlt_bool. rewrite negb_true_iff. split; intro H.
  - apply Qnot_le_lt. intro H'. apply Qle_bool_iff in H'. congruence.
  - destruct (Qle_bool b a) eqn:E; [|reflexivity].
    apply Qle_bool_iff in E. exfalso. apply (Qlt_not_le a b); assumption.
Qed.

Lemma hypot_lt_true (a b m : Q) :
  0 < m -> a * a + b * b < m * m -> hypot_lt a b m = true.
Proof.
  intros H1 H2. unfold hypot_lt.
  apply andb_true_intro; split; apply Qlt_bool_iff; assumption.
Qed.

Lemma pop_push {A} (l : list A) (x : A) : pop (l ++ [x]) = Some (x, l).
Proof. unfold pop. rewrite rev_app_distr. simpl. rewrite rev_involutive. reflexivity. Qed.

Lemma pop_nil {A} : @pop A [] = None.
Proof. reflexivity. Qed.

Lemma history_execute_redo_nil (c : Command) (s : EM) (h : History) :
  redoStack (snd (history_execute c s h)) = [].
Proof. unfold history_execute. destruct (execute c s). reflexivity. Qed.

(** ** Spec examples (spec §8) *)

(** P1's example: [addLine(0,0,0,10)] is rejected with minimum 50. *)
Example addLine_example_short : addLine 0 0 0 10 emptyEM = (None, emptyEM).
Proof. vm_compute. reflexivity. Qed.

(** Scenario: a 100px vertical line is created, undone, and redone with
    identical endpoints. *)
Example add_undo_redo_scenario :
  let '(s1, h1) := run_actions [NewAddLine 100 100 100 200] emptyEM defaultHistory in
  let '(s2, h2) := undo_times 1 s1 h1 in
  let '(s3, h3) := redo_times 1 s2 h2 in
  line_view s1 = [(100, 100, 100, 200)] /\ line_view s2 = [] /\ world s2 = [] /\
  line_view s3 = [(100, 100, 100, 200)].
Proof. vm_compute. repeat split. Qed.

(** ** C3: minimum-length rejection *)

(** C3: [addLine(x1,y1,x2,y2)] with the Euclidean distance between the
    endpoints below the configured minimum returns [null] and has no side
    effect: the whole manager (line collection, line objects, physics world,
    allocation counters) is left as it was. *)
Theorem addLine_short_rejected (a b c d : Q) (s : EM) :
  (c - a) * (c - a) + (d - b) * (d - b) < ENTITY_minLineLength * ENTITY_minLineLength ->
  addLine a b c d s = (None, s).
Proof.
  intro H. unfold addLine.
  rewrite hypot_lt_true; [reflexivity | reflexivity | assumption].
Qed.

Lemma addLine_short_rejected_witness :
  (0 - 0) * (0 - 0) + (10 - 0) * (10 - 0) < ENTITY_minLineLength * ENTITY_minLineLength /\
  addLine 0 0 0 10 emptyEM = (None, emptyEM).
Proof.
  split.
  - vm_compute. reflexivity.
  - apply (addLine_short_rejected 0 0 0 10 emptyEM). vm_compute. reflexivity.
Defined.

(** ** C4: a new command invalidates redo *)

(** C4: after [execute(A)], [execute(B)], [undo()], [execute(C)], [redo()]
    returns false and changes neither the manager nor the history: the
    redo stack is empty, so B is discarded for good. *)
Theorem redo_invalidated_by_execute (A B C : Command) (s0 : EM) (h0 : History) :
  let '(s1, h1) := history_execute A s0 h0 in
  let '(s2, h2) := history_execute B s1 h1 in
  let '(_, s3, h3) := history_undo s2 h2 in
  let '(s4, h4) := history_execute C s3 h3 in
  redoStack h4 = [] /\ history_redo s4 h4 = (false, s4, h4).
Proof.
  destruct (history_execute A s0 h0) as [s1 h1].
  destruct (history_execute B s1 h1) as [s2 h2].
  destruct (history_undo s2 h2) as [[u s3] h3].
  destruct (history_execute C s3 h3) as [s4 h4] eqn:E.
  assert (Hr : redoStack h4 = []).
  { pose proof (history_execute_redo_nil C s3 h3) as Hn. rewrite E in Hn. exact Hn. }
  split; [exact Hr|].
  unfold history_redo. rewrite Hr. reflexivity.
Qed.

(** ** C9: undoing a rejected AddLine *)

(** C9: if an [AddLineCommand]'s [execute()] returned [null] (the line was
    too short), then its [undo()], from any later manager state, changes
    nothing: no line or body is removed. *)
Theorem undo_failed_addLine_noop (a b c d : Q) (r : option nat) (s s' : EM) (cmd' : Command) :
  execute (AddLineCommand a b c d r) s = (cmd', s') ->
  cmd' = AddLineCommand a b c d None ->
  forall t : EM, undo cmd' t = (cmd', t).
Proof. intros _ -> t. reflexivity. Qed.

Lemma undo_failed_addLine_noop_witness :
  execute (AddLineCommand 0 0 0 10 None) emptyEM = (AddLineCommand 0 0 0 10 None, emptyEM) /\
  undo (AddLineCommand 0 0 0 10 None) (snd (addLine 0 0 100 0 emptyEM))
  = (AddLineCommand 0 0 0 10 None, snd (addLine 0 0 100 0 emptyEM)).
Proof.
  split.
  - vm_compute. reflexivity.
  - apply (undo_failed_addLine_noop 0 0 0 10 None emptyEM emptyEM); vm_compute; reflexivity.
Defined.

(** ** C2: the body swap of [updateLineEndpoint] *)

Lemma removeBody_ids (b : Body) (w : list Body) :
  map body_id (removeBody b w) = removeFromArray (body_id b) (map body_id w).
Proof.
  induction w as [|b' w IH]; simpl; [reflexivity|].
  destruct (Nat.eqb (body_id b') (body_id b)); simpl; [reflexivity|].
  rewrite IH. reflexivity.
Qed.

Lemma removeFromArray_incl (i j : nat) (l : list nat) :
  In j (removeFromArray i l) -> In j l.
Proof.
  induction l as [|k l IH]; simpl; [tauto|].
  destruct (Nat.eqb k i); simpl; [tauto|]. intros [->|H]; [left; reflexivity|right; auto].
Qed.

Lemma removeFromArray_gone (i : nat) (l : list nat) :
  NoDup l -> ~ In i (removeFromArray i l).
Proof.
  induction l as [|k l IH]; simpl; [tauto|].
  intros Hnd. inversion Hnd as [|? ? Hk Hl]; subst.
  destruct (Nat.eqb k i) eqn:E.
  - apply Nat.eqb_eq in E. subst. intro H. apply Hk, list_elem_of_In, H.
  - apply Nat.eqb_neq in E. simpl. intros [H|H]; [congruence|]. exact (IH Hl H).
Qed.

Lemma removeFromArray_NoDup (i : nat) (l : list nat) :
  NoDup l -> NoDup (removeFromArray i l).
Proof.
  induction l as [|k l IH]; simpl; [tauto|].
  intros Hnd. inversion Hnd as [|? ? Hk Hl]; subst.
  destruct (Nat.eqb k i); [exact Hl|].
  constructor; [|exact (IH Hl)]. intro H. apply Hk.
  apply list_elem_of_In. apply list_elem_of_In in H. eapply removeFromArray_incl; eauto.
Qed.

Lemma count_occ_notin (l : list nat) (n : nat) :
  ~ In n l -> count_occ Nat.eq_dec l n = 0%nat.
Proof. intro H. apply count_occ_not_In. exact H. Qed.

(** C2: after [updateLineEndpoint(line, endpoint, x, y)] on a line whose
    body is registered in the physics world (whose bodies are distinct
    objects, all allocated before), the line holds a new body registered
    exactly once, the old body is no longer registered, no body is
    registered twice, and the new body is the rectangle built from the new
    endpoints (centre, and the vector giving length and angle). *)
Theorem updateLineEndpoint_body_swap (s : EM) (id : nat) (l : Line) (ep : Endpoint) (x y : Q) :
  lheap s !! id = Some l ->
  In (body_id (lbody l)) (map body_id (world s)) ->
  NoDup (map body_id (world s)) ->
  (forall b, In b (world s) -> (body_id b < next_body s)%nat) ->
  let s' := updateLineEndpoint id ep x y s in
  exists l' : Line,
    lheap s' !! id = Some l' /\
    (x1 l', y1 l', x2 l', y2 l') =
      match ep with EpStart => (x, y, x2 l, y2 l) | EpEnd => (x1 l, y1 l, x, y) end /\
    In (lbody l') (world s') /\
    count_occ Nat.eq_dec (map body_id (world s')) (body_id (lbody l')) = 1%nat /\
    ~ In (body_id (lbody l)) (map body_id (world s')) /\
    NoDup (map body_id (world s')) /\
    body_shape (lbody l') = line_shape (x1 l') (y1 l') (x2 l') (y2 l').
Proof.
  intros Hl Hin Hnd Hfresh s'.
  assert (Hnew : ~ In (next_body s) (map body_id (world s))).
  { intro H. apply in_map_iff in H as [b [Hb Hbw]].
    specialize (Hfresh b Hbw). lia. }
  assert (Hold : ~ In (body_id (lbody l)) (removeFromArray (body_id (lbody l)) (map body_id (world s))))
    by (apply removeFromArray_gone; exact Hnd).
  assert (Hsub : forall j, In j (removeFromArray (body_id (lbody l)) (map body_id (world s))) ->
                           In j (map body_id (world s)))
    by (intros j; apply removeFromArray_incl).
  subst s'. unfold updateLineEndpoint. rewrite Hl.
  destruct ep; unfold updatePosition; rewrite Hl; simpl;
    eexists; (split; [apply lookup_insert_eq|]); simpl;
    (split; [reflexivity|]);
    unfold addBody; rewrite map_app, removeBody_ids; simpl;
    (split; [apply in_or_app; right; left; reflexivity|]);
    (split; [rewrite count_occ_app; simpl;
             rewrite count_occ_notin by (intro H; apply Hnew, Hsub, H);
             destruct (Nat.eq_dec (next_body s) (next_body s)); [reflexivity|congruence]|]);
    (split; [intro H; apply in_app_or in H as [H|[H|H]];
             [exact (Hold H) | apply Hnew; rewrite H; exact Hin | exact H]|]);
    (split; [apply NoDup_app; repeat split;
             [apply removeFromArray_NoDup; exact Hnd
             | intros j Hj Hj'; apply list_elem_of_singleton in Hj'; subst j;
               apply list_elem_of_In in Hj; apply Hnew, Hsub, Hj
             | apply NoDup_singleton]|]);
    reflexivity.
Qed.

Lemma updateLineEndpoint_body_swap_witness :
  let s := snd (addLine 0 0 100 0 emptyEM) in
  exists l, lheap s !! 0%nat = Some l /\
  In (body_id (lbody l)) (map body_id (world s)) /\ NoDup (map body_id (world s)) /\
  exists l' : Line,
    lheap (updateLineEndpoint 0 EpEnd 0 80 s) !! 0%nat = Some l' /\
    (x1 l', y1 l', x2 l', y2 l') = (x1 l, y1 l, 0, 80) /\
    In (lbody l') (world (updateLineEndpoint 0 EpEnd 0 80 s)) /\
    count_occ Nat.eq_dec (map body_id (world (updateLineEndpoint 0 EpEnd 0 80 s)))
      (body_id (lbody l')) = 1%nat /\
    ~ In (body_id (lbody l)) (map body_id (world (updateLineEndpoint 0 EpEnd 0 80 s))) /\
    NoDup (map body_id (world (updateLineEndpoint 0 EpEnd 0 80 s))) /\
    body_shape (lbody l') = line_shape (x1 l') (y1 l') (x2 l') (y2 l').
Proof.
  intro s. exists (line_obj s 0). vm_compute.
  split; [reflexivity|]. split; [left; reflexivity|]. split; [apply NoDup_singleton|].
  apply (updateLineEndpoint_body_swap s 0 (line_obj s 0) EpEnd 0 80).
  - vm_compute. reflexivity.
  - vm_compute. left. reflexivity.
  - vm_compute. apply NoDup_singleton.
  - intros b Hb. vm_compute in Hb. destruct Hb as [<-|[]]. vm_compute. lia.
Defined.

(** ** C7: spatial queries return the first match *)

Section FirstMatch.
Context {A : Type} (p : A -> bool).

(** A linear scan returning the first element accepted by [p]. *)
Fixpoint first_match (l : list A) : option A :=
  match l with
  | [] => None
  | a :: l' => if p a then Some a else first_match l'
  end.

(** [r] is the first element of [l] accepted by [p], or [None] when
    [p] accepts none. *)
Definition is_first (l : list A) (r : option A) : Prop :=
  match r with
  | Some a => exists pre post, l = pre ++ a :: post /\ p a = true /\
                               Forall (fun b => p b = false) pre
  | None => Forall (fun b => p b = false) l
  end.

Lemma first_match_is_first (l : list A) : is_first l (first_match l).
Proof.
  induction l as [|a l IH]; simpl; [constructor|].
  destruct (p a) eqn:E.
  - exists [], l. simpl. split; [reflexivity|]. split; [exact E|constructor].
  - destruct (first_match l) as [b|] eqn:F; simpl in *.
    + destruct IH as [pre [post [-> [Hb Hpre]]]].
      exists (a :: pre), post. simpl. split; [reflexivity|]. split; [exact Hb|].
      constructor; assumption.
    + constructor; assumption.
Qed.
End FirstMatch.

Definition line_hit (s : EM) (x y th : Q) (id : nat) : bool :=
  match lheap s !! id with Some l => line_within l x y th | None => false end.

Definition endpoint_hit (s : EM) (x y th : Q) (e : nat * Endpoint) : bool :=
  match lheap s !! e.1 with Some l => endpoint_within l e.2 x y th | None => false end.

Definition spawner_hit (s : EM) (x y th : Q) (id : nat) : bool :=
  match sheap s !! id with
  | Some sp => hypot_lt (sx sp - x) (sy sp - y) th
  | None => false
  end.

(** The endpoints in the order [findNearestEndpoint] visits them. *)
Definition endpoint_order (s : EM) : list (nat * Endpoint) :=
  flat_map (fun id => [(id, EpStart); (id, EpEnd)]) (lines s).

Lemma findNearestLine_first_match (x y th : Q) (s : EM) :
  findNearestLine x y th s = first_match (line_hit s x y th) (lines s).
Proof.
  unfold findNearestLine. induction (lines s) as [|id ls IH]; simpl; [reflexivity|].
  unfold line_hit at 1. destruct (lheap s !! id); [destruct (line_within _ _ _ _)|]; auto.
Qed.

Lemma findNearestEndpoint_first_match (x y th : Q) (s : EM) :
  findNearestEndpoint x y th s = first_match (endpoint_hit s x y th) (endpoint_order s).
Proof.
  unfold findNearestEndpoint, endpoint_order.
  induction (lines s) as [|id ls IH]; simpl; [reflexivity|].
  unfold endpoint_hit at 1 2; simpl.
  destruct (lheap s !! id); [|exact IH].
  cbn [endpoint_within].
  destruct (hypot_lt (x - x1 l) (y - y1 l) th); [reflexivity|].
  destruct (hypot_lt (x - x2 l) (y - y2 l) th); [reflexivity|exact IH].
Qed.

Lemma findNearestSpawner_first_match (x y th : Q) (s : EM) :
  findNearestSpawner x y th s = first_match (spawner_hit s x y th) (spawners s).
Proof.
  unfold findNearestSpawner. induction (spawners s) as [|id ss IH]; simpl; [reflexivity|].
  unfold spawner_hit at 1. destruct (sheap s !! id); [destruct (hypot_lt _ _ _)|]; auto.
Qed.

(** C7: for every query point and threshold, [findNearestLine],
    [findNearestEndpoint] and [findNearestSpawner] return the first entity
    in collection (insertion) order whose distance to the point is below
    the threshold (for endpoints: the start then the end of each line in
    turn), and [null] when there is none; distances are not compared with
    each other. *)
Theorem findNearest_first_in_order (x y th : Q) (s : EM) :
  is_first (line_hit s x y th) (lines s) (findNearestLine x y th s) /\
  is_first (endpoint_hit s x y th) (endpoint_order s) (findNearestEndpoint x y th s) /\
  is_first (spawner_hit s x y th) (spawners s) (findNearestSpawner x y th s).
Proof.
  rewrite findNearestLine_first_match, findNearestEndpoint_first_match,
    findNearestSpawner_first_match.
  split; [|split]; apply first_match_is_first.
Qed.

(** The first match is not the closest: with lines [y = 10] and [y = 1]
    (in that order) and threshold 15 at the origin, the farther line is
    returned. *)
Example findNearestLine_not_closest :
  let s := snd (addLine 1 1 100 1 (snd (addLine 0 10 100 10 emptyEM))) in
  findNearestLine 0 0 15 s = Some 0%nat /\
  Qlt (distSqToPoint (line_obj s 1) 0 0) (distSqToPoint (line_obj s 0) 0 0).
Proof. vm_compute. split; reflexivity. Qed.

(** ** C10: one ball per spawner and per [updateSpawners] call *)

Definition spawner_due_at (s : EM) (now : Q) (id : nat) : bool :=
  match sheap s !! id with Some sp => spawner_due now sp | None => false end.

(** What one [forEach] visit does to a spawner object. *)
Definition after_visit (now : Q) (o : option Spawner) : option Spawner :=
  match o with
  | Some sp => if spawner_due now sp
               then Some (mkSpawner (sx sp) (sy sp) now (interval sp)) else Some sp
  | None => None
  end.

Definition ball_at (x y : Q) (b : Ball) : Prop :=
  exists i, ball_body b = mkBody i (Circle x y ballRadius).

Definition ball_of (s : EM) (id : nat) (b : Ball) : Prop :=
  exists sp, sheap s !! id = Some sp /\ ball_at (sx sp) (sy sp) b.

Lemma updateSpawner_step_facts (now : Q) (s : EM) (id : nat) :
  let s1 := updateSpawner_step now s id in
  spawners s1 = spawners s /\
  (exists nb, balls s1 = balls s ++ nb /\
     Forall2 (ball_of s) (if spawner_due_at s now id then [id] else []) nb) /\
  sheap s1 !! id = after_visit now (sheap s !! id) /\
  (forall j, j <> id -> sheap s1 !! j = sheap s !! j).
Proof.
  unfold updateSpawner_step, spawner_due_at, after_visit.
  destruct (sheap s !! id) as [sp|] eqn:Hsp.
  - destruct (spawner_due now sp) eqn:Hd; simpl.
    + split; [reflexivity|]. split.
      * eexists. split; [reflexivity|]. constructor; [|constructor].
        exists sp. split; [exact Hsp|]. eexists. reflexivity.
      * split; [apply lookup_insert_eq|]. intros j Hj. apply lookup_insert_ne. congruence.
    + split; [reflexivity|]. split.
      * exists []. rewrite app_nil_r. split; [reflexivity|constructor].
      * split; [exact Hsp|]. reflexivity.
  - simpl. split; [reflexivity|]. split.
    + exists []. rewrite app_nil_r. split; [reflexivity|constructor].
    + split; [exact Hsp|]. reflexivity.
Qed.

Lemma Forall2_impl_in {A B} (P R : A -> B -> Prop) (l : list A) (k : list B) :
  Forall2 P l k -> (forall a b, In a l -> P a b -> R a b) -> Forall2 R l k.
Proof.
  induction 1 as [|a b l k Hab Hlk IH]; intros H; constructor.
  - apply H; [left; reflexivity|exact Hab].
  - apply IH. intros a' b' Ha'. apply H. right. exact Ha'.
Qed.

Lemma updateSpawners_fold (now : Q) (ids : list nat) (s : EM) :
  NoDup ids ->
  let s' := fold_left (updateSpawner_step now) ids s in
  spawners s' = spawners s /\
  (exists nb, balls s' = balls s ++ nb /\
     Forall2 (ball_of s) (List.filter (spawner_due_at s now) ids) nb) /\
  (forall j, In j ids -> sheap s' !! j = after_visit now (sheap s !! j)) /\
  (forall j, ~ In j ids -> sheap s' !! j = sheap s !! j).
Proof.
  revert s. induction ids as [|id ids IH]; intros s Hnd; simpl.
  - split; [reflexivity|]. split; [exists []; rewrite app_nil_r; split; [reflexivity|constructor]|].
    split; [intros j []|reflexivity].
  - apply NoDup_cons in Hnd as [Hid Hnd].
    assert (Hid' : ~ In id ids) by (intro H; apply Hid, list_elem_of_In, H).
    destruct (updateSpawner_step_facts now s id) as [Hsp1 [[nb1 [Hb1 Hf1]] [Hh1 Hhj]]].
    set (s1 := updateSpawner_step now s id) in *.
    destruct (IH s1 Hnd) as [Hsp2 [[nb2 [Hb2 Hf2]] [Hin2 Hout2]]].
    assert (Hagree : forall j, In j ids -> sheap s1 !! j = sheap s !! j).
    { intros j Hj. apply Hhj. intros ->. exact (Hid' Hj). }
    split; [rewrite Hsp2; exact Hsp1|]. split; [|split].
    + exists (nb1 ++ nb2). rewrite Hb2, Hb1, <- app_assoc. split; [reflexivity|].
      assert (Hfilt : List.filter (spawner_due_at s1 now) ids = List.filter (spawner_due_at s now) ids).
      { apply filter_ext_in. intros j Hj. unfold spawner_due_at. rewrite (Hagree j Hj). reflexivity. }
      rewrite Hfilt in Hf2.
      assert (Hsplit : (if spawner_due_at s now id
                        then id :: List.filter (spawner_due_at s now) ids
                        else List.filter (spawner_due_at s now) ids)
                       = (if spawner_due_at s now id then [id] else [])
                         ++ List.filter (spawner_due_at s now) ids)
        by (destruct (spawner_due_at s now id); reflexivity).
      rewrite Hsplit.
      apply Forall2_app; [exact Hf1|].
      apply (Forall2_impl_in _ _ _ _ Hf2). intros j b Hj [sp [Hsp Hb]].
      apply filter_In in Hj as [Hj _].
      exists sp. split; [|exact Hb]. rewrite <- Hsp. symmetry. apply Hagree, Hj.
    + intros j [<-|Hj].
      * rewrite (Hout2 id Hid'). exact Hh1.
      * rewrite (Hin2 j Hj), (Hagree j Hj). reflexivity.
    + intros j Hj. rewrite Hout2 by tauto. apply Hhj. intros ->. apply Hj. left. reflexivity.
Qed.

(** C10: one call [updateSpawners(now)] creates exactly one ball (at the
    spawner's position) for each spawner whose [now - lastSpawn] exceeds
    its interval and none for the others, in spawner order, so at most one
    ball per spawner however much time has elapsed; each emitting spawner's
    [lastSpawn] becomes [now], the others are unchanged.  The spawners
    array holds distinct objects. *)
Theorem updateSpawners_at_most_one_ball (now : Q) (s : EM) :
  NoDup (spawners s) ->
  let s' := updateSpawners now s in
  spawners s' = spawners s /\
  (exists nb, balls s' = balls s ++ nb /\
     Forall2 (ball_of s) (List.filter (spawner_due_at s now) (spawners s)) nb) /\
  (forall id sp, In id (spawners s) -> sheap s !! id = Some sp ->
     sheap s' !! id = Some (if spawner_due now sp
                           then mkSpawner (sx sp) (sy sp) now (interval sp) else sp)).
Proof.
  intros Hnd s'. unfold s', updateSpawners.
  destruct (updateSpawners_fold now (spawners s) s Hnd) as [H1 [H2 [H3 _]]].
  split; [exact H1|]. split; [exact H2|].
  intros id sp Hin Hsp. rewrite (H3 id Hin), Hsp. simpl.
  destruct (spawner_due now sp); reflexivity.
Qed.

Lemma updateSpawners_at_most_one_ball_witness :
  let s := snd (addSpawner 10 20 None (snd (addSpawner 0 0 None emptyEM))) in
  NoDup (spawners s) /\
  length (balls (updateSpawners 100000 s)) = 2%nat /\
  spawners (updateSpawners 100000 s) = spawners s /\
  (exists nb, balls (updateSpawners 100000 s) = balls s ++ nb /\
     Forall2 (ball_of s) (List.filter (spawner_due_at s 100000) (spawners s)) nb) /\
  (forall id sp, In id (spawners s) -> sheap s !! id = Some sp ->
     sheap (updateSpawners 100000 s) !! id =
       Some (if spawner_due 100000 sp
             then mkSpawner (sx sp) (sy sp) 100000 (interval sp) else sp)).
Proof.
  intro s.
  assert (Hnd : NoDup (spawners s)).
  { vm_compute. constructor; [|apply NoDup_singleton]. intro H.
    apply list_elem_of_singleton in H. discriminate. }
  split; [exact Hnd|]. split; [vm_compute; reflexivity|].
  exact (updateSpawners_at_most_one_ball 100000 s Hnd).
Defined.

(** ** C6: scaling a group there and back *)

Definition lcoords (l : Line) : Q * Q * Q * Q := (x1 l, y1 l, x2 l, y2 l).
Definition scoords (sp : Spawner) : Q * Q := (sx sp, sy sp).

Definition map4 (fx fy : Q -> Q) (c : Q * Q * Q * Q) : Q * Q * Q * Q :=
  let '(a, b, c', d) := c in (fx a, fy b, fx c', fy d).
Definition map2 (fx fy : Q -> Q) (c : Q * Q) : Q * Q :=
  let '(a, b) := c in (fx a, fy b).

Lemma iter_map4 (fx fy : Q -> Q) (k : nat) (a b c d : Q) :
  Nat.iter k (map4 fx fy) (a, b, c, d) =
  (Nat.iter k fx a, Nat.iter k fy b, Nat.iter k fx c, Nat.iter k fy d).
Proof. induction k as [|k IH]; simpl; [reflexivity|]. rewrite IH. reflexivity. Qed.

Lemma iter_map2 (fx fy : Q -> Q) (k : nat) (a b : Q) :
  Nat.iter k (map2 fx fy) (a, b) = (Nat.iter k fx a, Nat.iter k fy b).
Proof. induction k as [|k IH]; simpl; [reflexivity|]. rewrite IH. reflexivity. Qed.

Lemma count_occ_cons_split (l : list nat) (a j : nat) :
  count_occ Nat.eq_dec (a :: l) j =
  if Nat.eq_dec a j then S (count_occ Nat.eq_dec l j) else count_occ Nat.eq_dec l j.
Proof. simpl. destruct (Nat.eq_dec a j); reflexivity. Qed.

Lemma updateLinePosition_heap (id : nat) (a b c d : Q) (s : EM) (l : Line) :
  lheap s !! id = Some l ->
  exists bd, lheap (updateLinePosition id a b c d s) = <[id := mkLine a b c d bd]> (lheap s) /\
             sheap (updateLinePosition id a b c d s) = sheap s.
Proof.
  intro Hl. unfold updateLinePosition, updatePosition. rewrite Hl. simpl.
  eexists. split; reflexivity.
Qed.

Section Scale.
Variables (ob nb : Bounds) (scaleX scaleY : Q).
Let fx := scale_coord (minX nb) (minX ob) scaleX.
Let fy := scale_coord (minY nb) (minY ob) scaleY.

Lemma scaleLine_fold (ls : list nat) (s : EM) :
  let s' := fold_left (scaleLine_step ob nb scaleX scaleY) ls s in
  sheap s' = sheap s /\
  forall j, option_map lcoords (lheap s' !! j) =
            option_map (Nat.iter (count_occ Nat.eq_dec ls j) (map4 fx fy))
                       (option_map lcoords (lheap s !! j)).
Proof.
  revert s. induction ls as [|id ls IH]; intros s; simpl.
  - split; [reflexivity|]. intros j. destruct (lheap s !! j); reflexivity.
  - set (s1 := scaleLine_step ob nb scaleX scaleY s id).
    destruct (IH s1) as [Hsh Hj]. split.
    + rewrite Hsh. unfold s1, scaleLine_step. destruct (lheap s !! id) as [l|] eqn:Hl; [|reflexivity].
      destruct (updateLinePosition_heap id
                  (scale_coord (minX nb) (minX ob) scaleX (x1 l))
                  (scale_coord (minY nb) (minY ob) scaleY (y1 l))
                  (scale_coord (minX nb) (minX ob) scaleX (x2 l))
                  (scale_coord (minY nb) (minY ob) scaleY (y2 l)) s l Hl) as [bd [_ H]].
      exact H.
    + intros j. rewrite Hj. clear Hj Hsh IH.
      unfold s1, scaleLine_step. destruct (lheap s !! id) as [l|] eqn:Hl.
      * destruct (updateLinePosition_heap id
                  (scale_coord (minX nb) (minX ob) scaleX (x1 l))
                  (scale_coord (minY nb) (minY ob) scaleY (y1 l))
                  (scale_coord (minX nb) (minX ob) scaleX (x2 l))
                  (scale_coord (minY nb) (minY ob) scaleY (y2 l)) s l Hl) as [bd [H _]].
        rewrite H. destruct (Nat.eq_dec id j) as [<-|Hne].
        -- rewrite lookup_insert_eq, Hl. cbn [option_map]. rewrite Nat.iter_succ_r. reflexivity.
        -- rewrite lookup_insert_ne by exact Hne. reflexivity.
      * destruct (Nat.eq_dec id j) as [<-|Hne]; [rewrite Hl; reflexivity|reflexivity].
Qed.

Lemma scaleSpawner_fold (ss : list nat) (s : EM) :
  let s' := fold_left (scaleSpawner_step ob nb scaleX scaleY) ss s in
  lheap s' = lheap s /\
  forall j, option_map scoords (sheap s' !! j) =
            option_map (Nat.iter (count_occ Nat.eq_dec ss j) (map2 fx fy))
                       (option_map scoords (sheap s !! j)).
Proof.
  revert s. induction ss as [|id ss IH]; intros s; simpl.
  - split; [reflexivity|]. intros j. destruct (sheap s !! j); reflexivity.
  - set (s1 := scaleSpawner_step ob nb scaleX scaleY s id).
    destruct (IH s1) as [Hlh Hj]. split.
    + rewrite Hlh. unfold s1, scaleSpawner_step. destruct (sheap s !! id); reflexivity.
    + intros j. rewrite Hj. clear Hj Hlh IH.
      unfold s1, scaleSpawner_step. destruct (sheap s !! id) as [sp|] eqn:Hsp.
      * simpl. destruct (Nat.eq_dec id j) as [<-|Hne].
        -- rewrite lookup_insert_eq, Hsp. cbn [option_map]. rewrite Nat.iter_succ_r. reflexivity.
        -- rewrite lookup_insert_ne by exact Hne. reflexivity.
      * destruct (Nat.eq_dec id j) as [<-|Hne]; [rewrite Hsp; reflexivity|reflexivity].
Qed.
End Scale.

Lemma iter_Qeq_proper (g : Q -> Q) (Hg : forall x y, x == y -> g x == g y) (k : nat) :
  forall x y, x == y -> Nat.iter k g x == Nat.iter k g y.
Proof. induction k as [|k IH]; intros x y H; simpl; [exact H|]. apply Hg, IH, H. Qed.

Lemma iter_inverse (f g : Q -> Q) :
  (forall x y, x == y -> g x == g y) -> (forall x, g (f x) == x) ->
  forall k x, Nat.iter k g (Nat.iter k f x) == x.
Proof.
  intros Hg Hgf k. induction k as [|k IH]; intros x; [reflexivity|].
  rewrite Nat.iter_succ_r. change (Nat.iter (S k) f x) with (f (Nat.iter k f x)).
  transitivity (Nat.iter k g (Nat.iter k f x)); [|apply IH].
  apply iter_Qeq_proper; [exact Hg|]. apply Hgf.
Qed.

Lemma scale_coord_inverse (minA minB wA wB : Q) :
  ~ wA == 0 -> ~ wB == 0 ->
  forall v, scale_coord minA minB (wA / wB) (scale_coord minB minA (wB / wA) v) == v.
Proof. intros HA HB v. unfold scale_coord. field. split; assumption. Qed.

Lemma scale_coord_proper (m0 m1 k : Q) :
  forall x y, x == y -> scale_coord m0 m1 k x == scale_coord m0 m1 k y.
Proof. intros x y H. unfold scale_coord. rewrite H. reflexivity. Qed.

(** C6: for bounding boxes [A] and [B] of positive width and height,
    [scaleMultiple(lines, spawners, A, B)] followed by
    [scaleMultiple(lines, spawners, B, A)] gives every line its original
    endpoints and every spawner its original position (exactly, over exact
    arithmetic; a line or spawner listed [k] times is scaled [k] times each
    way). *)
Theorem scaleMultiple_roundtrip (ls ss : list nat) (A B : Bounds) (s : EM) :
  0 < maxX A - minX A -> 0 < maxY A - minY A ->
  0 < maxX B - minX B -> 0 < maxY B - minY B ->
  let s' := scaleMultiple ls ss B A (scaleMultiple ls ss A B s) in
  (forall id l, lheap s !! id = Some l ->
     exists l', lheap s' !! id = Some l' /\
       x1 l' == x1 l /\ y1 l' == y1 l /\ x2 l' == x2 l /\ y2 l' == y2 l) /\
  (forall id sp, sheap s !! id = Some sp ->
     exists sp', sheap s' !! id = Some sp' /\ sx sp' == sx sp /\ sy sp' == sy sp).
Proof.
  intros HAx HAy HBx HBy s'.
  assert (nAx : ~ maxX A - minX A == 0) by (intro H; rewrite H in HAx; discriminate).
  assert (nAy : ~ maxY A - minY A == 0) by (intro H; rewrite H in HAy; discriminate).
  assert (nBx : ~ maxX B - minX B == 0) by (intro H; rewrite H in HBx; discriminate).
  assert (nBy : ~ maxY B - minY B == 0) by (intro H; rewrite H in HBy; discriminate).
  unfold s', scaleMultiple.
  set (sXf := (maxX B - minX B) / (maxX A - minX A)).
  set (sYf := (maxY B - minY B) / (maxY A - minY A)).
  set (sXb := (maxX A - minX A) / (maxX B - minX B)).
  set (sYb := (maxY A - minY A) / (maxY B - minY B)).
  set (s1 := fold_left (scaleLine_step A B sXf sYf) ls s).
  set (s2 := fold_left (scaleSpawner_step A B sXf sYf) ss s1).
  set (s3 := fold_left (scaleLine_step B A sXb sYb) ls s2).
  set (s4 := fold_left (scaleSpawner_step B A sXb sYb) ss s3).
  destruct (scaleLine_fold A B sXf sYf ls s) as [Hsh1 Hl1].
  destruct (scaleSpawner_fold A B sXf sYf ss s1) as [Hlh2 Hs2].
  destruct (scaleLine_fold B A sXb sYb ls s2) as [Hsh3 Hl3].
  destruct (scaleSpawner_fold B A sXb sYb ss s3) as [Hlh4 Hs4].
  fold s1 in Hsh1, Hl1. fold s2 in Hlh2, Hs2. fold s3 in Hsh3, Hl3. fold s4 in Hlh4, Hs4.
  assert (Hx : forall v, scale_coord (minX A) (minX B) sXb (scale_coord (minX B) (minX A) sXf v) == v)
    by (apply scale_coord_inverse; assumption).
  assert (Hy : forall v, scale_coord (minY A) (minY B) sYb (scale_coord (minY B) (minY A) sYf v) == v)
    by (apply scale_coord_inverse; assumption).
  split.
  - intros id l Hl.
    specialize (Hl3 id). rewrite Hlh2, Hl1, Hl in Hl3. rewrite <- Hlh4 in Hl3.
    destruct (lheap s4 !! id) as [l'|]; [|discriminate].
    exists l'. split; [reflexivity|].
    cbn [option_map] in Hl3. injection Hl3 as Hc.
    unfold lcoords at 2 in Hc. destruct l as [a b c d bd]. simpl.
    rewrite iter_map4, iter_map4 in Hc. unfold lcoords in Hc.
    injection Hc as Ha Hb Hc' Hd. rewrite Ha, Hb, Hc', Hd.
    repeat split; apply iter_inverse; try apply scale_coord_proper; assumption.
  - intros id sp Hsp.
    specialize (Hs4 id). rewrite Hsh3, Hs2, Hsh1, Hsp in Hs4.
    destruct (sheap s4 !! id) as [sp'|]; [|discriminate].
    exists sp'. split; [reflexivity|].
    cbn [option_map] in Hs4. injection Hs4 as Hc.
    destruct sp as [a b ls0 iv]. unfold scoords at 2 in Hc. simpl in Hc |- *.
    rewrite iter_map2, iter_map2 in Hc. unfold scoords in Hc.
    injection Hc as Ha Hb. rewrite Ha, Hb.
    split; apply iter_inverse; try apply scale_coord_proper; assumption.
Qed.

Lemma scaleMultiple_roundtrip_witness :
  let A := mkBounds 0 0 100 50 in
  let B := mkBounds 10 20 310 420 in
  let s := snd (addSpawner 30 40 None (snd (addLine 0 0 100 50 emptyEM))) in
  0 < maxX A - minX A /\ 0 < maxY A - minY A /\ 0 < maxX B - minX B /\ 0 < maxY B - minY B /\
  (forall id l, lheap s !! id = Some l ->
     exists l', lheap (scaleMultiple [0%nat] [1%nat] B A (scaleMultiple [0%nat] [1%nat] A B s)) !! id = Some l' /\
       x1 l' == x1 l /\ y1 l' == y1 l /\ x2 l' == x2 l /\ y2 l' == y2 l) /\
  (forall id sp, sheap s !! id = Some sp ->
     exists sp', sheap (scaleMultiple [0%nat] [1%nat] B A (scaleMultiple [0%nat] [1%nat] A B s)) !! id = Some sp' /\
       sx sp' == sx sp /\ sy sp' == sy sp).
Proof.
  intros A B s.
  assert (H1 : 0 < maxX A - minX A) by (vm_compute; reflexivity).
  assert (H2 : 0 < maxY A - minY A) by (vm_compute; reflexivity).
  assert (H3 : 0 < maxX B - minX B) by (vm_compute; reflexivity).
  assert (H4 : 0 < maxY B - minY B) by (vm_compute; reflexivity).
  split; [exact H1|]. split; [exact H2|]. split; [exact H3|]. split; [exact H4|].
  exact (scaleMultiple_roundtrip [0%nat] [1%nat] A B s H1 H2 H3 H4).
Defined.

(** ** C8: [removeLine] of a line outside the collection *)

Lemma removeFromArray_notin (i : nat) (l : list nat) :
  ~ In i l -> removeFromArray i l = l.
Proof.
  induction l as [|k l IH]; simpl; [reflexivity|]. intros H.
  destruct (Nat.eqb k i) eqn:E.
  - apply Nat.eqb_eq in E. subst. exfalso. apply H. left. reflexivity.
  - rewrite IH; [reflexivity|]. intro H'. apply H. right. exact H'.
Qed.

Lemma removeBody_notin (b : Body) (w : list Body) :
  ~ In (body_id b) (map body_id w) -> removeBody b w = w.
Proof.
  induction w as [|b' w IH]; simpl; [reflexivity|]. intros H.
  destruct (Nat.eqb (body_id b') (body_id b)) eqn:E.
  - apply Nat.eqb_eq in E. exfalso. apply H. left. exact E.
  - rewrite IH; [reflexivity|]. intro H'. apply H. right. exact H'.
Qed.

(** A line that was removed and then moved through a stale reference:
    [addLine(0,0,100,0)], [removeLine(line)], then
    [updateLinePosition(line, 0,0,200,0)], which registers a new body for
    the line although it is no longer in the collection. *)
Definition stale_line_state : EM :=
  updateLinePosition 0 0 0 200 0 (removeLine (Some 0%nat) (snd (addLine 0 0 100 0 emptyEM))).

(** C8 fails as stated: on [stale_line_state], line 0 is not in the
    collection, yet [removeLine(line)] changes the physics world (it
    removes the line's body). *)
Lemma removeLine_absent_changes_world :
  ~ (forall (s : EM) (id : nat), ~ In id (lines s) ->
       lines (removeLine (Some id) s) = lines s /\ world (removeLine (Some id) s) = world s).
Proof.
  intro H. destruct (H stale_line_state 0%nat) as [_ Hw].
  - vm_compute. tauto.
  - vm_compute in Hw. discriminate.
Qed.

(** C8 (amended): for a non-null line not in the collection,
    [removeLine(line)] raises no error and leaves the line collection, the
    line and spawner objects, the spawners and the balls unchanged; on the
    physics world it still removes that line's body, which leaves the world
    unchanged when that body is not registered (as for a line already
    removed by [removeLine]). *)
Theorem removeLine_absent_keeps_collection (s : EM) (id : nat) :
  ~ In id (lines s) ->
  let s' := removeLine (Some id) s in
  lines s' = lines s /\ lheap s' = lheap s /\ sheap s' = sheap s /\
  spawners s' = spawners s /\ balls s' = balls s /\
  (forall l, lheap s !! id = Some l ->
     world s' = removeBody (lbody l) (world s) /\
     (~ In (body_id (lbody l)) (map body_id (world s)) -> world s' = world s)).
Proof.
  intros Hin s'. unfold s', removeLine.
  destruct (lheap s !! id) as [l|] eqn:Hl; simpl.
  - rewrite removeFromArray_notin by exact Hin.
    do 5 (split; [reflexivity|]).
    intros l' Hl'. assert (E : l = l') by congruence. subst l'.
    split; [reflexivity|]. apply removeBody_notin.
  - do 5 (split; [reflexivity|]). intros l' Hl'. congruence.
Qed.

Lemma removeLine_absent_keeps_collection_witness :
  let s := removeLine (Some 0%nat) (snd (addLine 0 0 100 0 emptyEM)) in
  ~ In 0%nat (lines s) /\
  lines (removeLine (Some 0%nat) s) = lines s /\ lheap (removeLine (Some 0%nat) s) = lheap s /\
  sheap (removeLine (Some 0%nat) s) = sheap s /\
  spawners (removeLine (Some 0%nat) s) = spawners s /\ balls (removeLine (Some 0%nat) s) = balls s /\
  (forall l, lheap s !! 0%nat = Some l ->
     world (removeLine (Some 0%nat) s) = removeBody (lbody l) (world s) /\
     (~ In (body_id (lbody l)) (map body_id (world s)) -> world (removeLine (Some 0%nat) s) = world s)).
Proof.
  intro s. assert (H : ~ In 0%nat (lines s)) by (vm_compute; tauto).
  split; [exact H|]. exact (removeLine_absent_keeps_collection s 0 H).
Defined.

(** ** C5: spawner timing *)

(** Successive [updateSpawners(now)] calls (the game loop passes the frame
    timestamp). *)
Fixpoint run_ticks (ts : list Q) (s : EM) : EM :=
  match ts with
  | [] => s
  | now :: ts' => run_ticks ts' (updateSpawners now s)
  end.

(** C5 fails as stated: [addSpawner] records no creation time and sets
    [lastSpawn = 0], so a spawner created at [t0 = 10000] (any time past
    the first interval of page time) emits a ball at the very next frame
    [10016], before [t0 + I = 11500]. *)
Lemma spawner_emits_before_first_interval :
  let t0 := 10000 in
  let s := snd (addSpawner 0 0 None emptyEM) in
  10016 < t0 + ENTITY_spawnerIntervalMs /\
  length (balls (run_ticks [10016] s)) = 1%nat.
Proof. vm_compute. split; reflexivity. Qed.

(** The calls among [ts] at which spawner [id] emits: those where its test
    [now - spawner.lastSpawn > interval] passes.  Each of them adds one
    ball at the spawner's position (C10). *)
Fixpoint spawn_times (id : nat) (ts : list Q) (s : EM) : list Q :=
  match ts with
  | [] => []
  | now :: ts' =>
      (if spawner_due_at s now id then [now] else []) ++
      spawn_times id ts' (updateSpawners now s)
  end.

(** Successive times more than [iv] apart. *)
Fixpoint spaced_by (iv : Q) (es : list Q) : Prop :=
  match es with
  | a :: ((b :: _) as r) => iv < b - a /\ spaced_by iv r
  | _ => True
  end.

Lemma last_cons_shift (l : list Q) : forall a d, List.last (a :: l) d = List.last l a.
Proof.
  induction l as [|b l IH]; intros a d; [reflexivity|].
  change (List.last (b :: l) d = List.last (b :: l) a). rewrite !IH. reflexivity.
Qed.

Lemma last_cons_ne (l : list Q) (a d : Q) : l <> [] -> List.last (a :: l) d = List.last l d.
Proof. destruct l; [congruence|reflexivity]. Qed.

Lemma last_in (l : list Q) : forall a d, In (List.last (a :: l) d) (a :: l).
Proof.
  induction l as [|b l IH]; intros a d; [left; reflexivity|].
  change (In (List.last (b :: l) d) (a :: b :: l)). right. apply IH.
Qed.

Lemma spaced_tail (iv a : Q) (l : list Q) : spaced_by iv (a :: l) -> spaced_by iv l.
Proof. destruct l as [|b l]; [intros _; exact Logic.I|intros [_ H]; exact H]. Qed.

Lemma spaced_span (iv : Q) (l : list Q) :
  forall a, spaced_by iv (a :: l) -> inject_Z (Z.of_nat (length l)) * iv <= List.last l a - a.
Proof.
  induction l as [|b l IH]; intros a H.
  - cbn [length List.last]. change (inject_Z (Z.of_nat 0)) with 0. lra.
  - destruct H as [Hab Hl]. specialize (IH b Hl). rewrite last_cons_shift.
    cbn [length]. rewrite Nat2Z.inj_succ, <- Z.add_1_r, inject_Z_plus.
    change (inject_Z 1) with 1.
    assert (E : (inject_Z (Z.of_nat (length l)) + 1) * iv ==
                inject_Z (Z.of_nat (length l)) * iv + iv) by ring.
    rewrite E. lra.
Qed.

(** What one [updateSpawners(now)] call does to spawner [id] of an array of
    distinct spawners. *)
Lemma updateSpawners_visit (now : Q) (s : EM) (id : nat) (sp : Spawner) :
  NoDup (spawners s) -> In id (spawners s) -> sheap s !! id = Some sp ->
  spawners (updateSpawners now s) = spawners s /\
  sheap (updateSpawners now s) !! id =
    Some (if spawner_due now sp then mkSpawner (sx sp) (sy sp) now (interval sp) else sp) /\
  (spawners s = [id] ->
     length (balls (updateSpawners now s)) =
       (length (balls s) + if spawner_due now sp then 1 else 0)%nat).
Proof.
  intros Hnd Hin Hsp. unfold updateSpawners.
  destruct (updateSpawners_fold now (spawners s) s Hnd) as [H1 [[nb [Hb Hf]] [H3 _]]].
  split; [exact H1|]. split.
  - rewrite (H3 id Hin), Hsp. cbn [after_visit]. destruct (spawner_due now sp); reflexivity.
  - intros Hs. rewrite Hs in Hf. cbn [List.filter] in Hf. unfold spawner_due_at in Hf.
    rewrite Hsp in Hf. apply Forall2_length in Hf. rewrite Hb, length_app, <- Hf.
    destruct (spawner_due now sp); simpl; lia.
Qed.

Lemma spawn_run (id : nat) (ts : list Q) :
  forall (s : EM) (sp : Spawner),
  NoDup (spawners s) -> In id (spawners s) -> sheap s !! id = Some sp ->
  0 < or_default (Some (interval sp)) ->
  incl (spawn_times id ts s) ts /\
  spaced_by (or_default (Some (interval sp))) (lastSpawn sp :: spawn_times id ts s) /\
  (exists sp', sheap (run_ticks ts s) !! id = Some sp' /\
     sx sp' = sx sp /\ sy sp' = sy sp /\ interval sp' = interval sp /\
     lastSpawn sp' = List.last (spawn_times id ts s) (lastSpawn sp) /\
     (ts <> [] -> List.last ts 0 - lastSpawn sp' <= or_default (Some (interval sp)))) /\
  (spawners s = [id] ->
     length (balls (run_ticks ts s)) = (length (balls s) + length (spawn_times id ts s))%nat).
Proof.
  induction ts as [|now ts IH]; intros s sp Hnd Hin Hsp HI; cbn [spawn_times run_ticks].
  - split; [intros x []|]. split; [exact Logic.I|]. split.
    + exists sp. repeat split; [exact Hsp|congruence].
    + intros _. simpl. lia.
  - destruct (updateSpawners_visit now s id sp Hnd Hin Hsp) as [V1 [V2 V3]].
    set (s1 := updateSpawners now s) in *.
    assert (Hnd1 : NoDup (spawners s1)) by (rewrite V1; exact Hnd).
    assert (Hin1 : In id (spawners s1)) by (rewrite V1; exact Hin).
    unfold spawner_due_at. rewrite Hsp.
    destruct (spawner_due now sp) eqn:Hd.
    + set (sp1 := mkSpawner (sx sp) (sy sp) now (interval sp)) in *.
      destruct (IH s1 sp1 Hnd1 Hin1 V2 HI)
        as [E1 [E2 [[sp' [F1 [F2 [F3 [F4 [F5 F6]]]]]] E4]]].
      cbn [app]. split; [|split; [|split]].
      * intros x [<-|Hx]; [left; reflexivity|right; exact (E1 x Hx)].
      * split; [|exact E2]. unfold spawner_due in Hd. apply Qlt_bool_iff in Hd. exact Hd.
      * exists sp'. split; [exact F1|]. split; [exact F2|]. split; [exact F3|].
        split; [exact F4|]. split; [rewrite F5, last_cons_shift; reflexivity|].
        intros _. destruct ts as [|u ts].
        -- cbn [run_ticks] in F1. rewrite V2 in F1. injection F1 as <-.
           unfold sp1. cbn [List.last lastSpawn]. lra.
        -- rewrite last_cons_ne by discriminate. apply F6. discriminate.
      * intros Hs. rewrite E4 by (rewrite V1; exact Hs). rewrite (V3 Hs). simpl. lia.
    + destruct (IH s1 sp Hnd1 Hin1 V2 HI)
        as [E1 [E2 [[sp' [F1 [F2 [F3 [F4 [F5 F6]]]]]] E4]]].
      cbn [app]. split; [|split; [exact E2|split]].
      * intros x Hx. right. exact (E1 x Hx).
      * exists sp'. split; [exact F1|]. split; [exact F2|]. split; [exact F3|].
        split; [exact F4|]. split; [exact F5|].
        intros _. destruct ts as [|u ts].
        -- cbn [run_ticks] in F1. rewrite V2 in F1. injection F1 as <-.
           unfold spawner_due in Hd. cbn [List.last]. apply Qnot_lt_le. intro C.
           apply Qlt_bool_iff in C. congruence.
        -- rewrite last_cons_ne by discriminate. apply F6. discriminate.
      * intros Hs. rewrite E4 by (rewrite V1; exact Hs). rewrite (V3 Hs). simpl. lia.
Qed.

(** C5 (amended): take a spawner of a manager whose spawners array holds
    distinct objects, with [lastSpawn = 0] as [addSpawner] leaves it
    whatever its creation time, and effective interval [I > 0]; let the
    [updateSpawners(now)] calls have times [ts], all within [[t0, t]].
    - The first call with [now > I] emits a ball at once, even when the
      spawner was created less than [I] before it.
    - It emits at some of the call times, each more than [I] after the
      previous one (and the first after [I]).
    - So with [k] emissions, [(k - 1) * I <= t - t0]: at most
      [floor((t - t0) / I) + 1] balls by time [t].
    - Its [lastSpawn] ends as the latest emission time (0 with none), and
      the last call is at most [I] after it.
    - When it is the only spawner, the manager gains exactly [k] balls. *)
Theorem spawner_emission_bound (ts : list Q) (s : EM) (id : nat) (sp : Spawner) (t0 t : Q) :
  NoDup (spawners s) -> In id (spawners s) -> sheap s !! id = Some sp -> lastSpawn sp = 0 ->
  0 < or_default (Some (interval sp)) ->
  Forall (fun u => t0 <= u <= t) ts ->
  (forall now ts', or_default (Some (interval sp)) < now ->
     spawn_times id (now :: ts') s = now :: spawn_times id ts' (updateSpawners now s)) /\
  incl (spawn_times id ts s) ts /\
  spaced_by (or_default (Some (interval sp))) (0 :: spawn_times id ts s) /\
  (spawn_times id ts s = [] \/
   inject_Z (Z.of_nat (length (spawn_times id ts s)) - 1) * or_default (Some (interval sp))
     <= t - t0) /\
  (exists sp', sheap (run_ticks ts s) !! id = Some sp' /\ interval sp' = interval sp /\
     lastSpawn sp' = List.last (spawn_times id ts s) 0 /\
     (ts <> [] -> List.last ts 0 - lastSpawn sp' <= or_default (Some (interval sp)))) /\
  (spawners s = [id] ->
     length (balls (run_ticks ts s)) = (length (balls s) + length (spawn_times id ts s))%nat).
Proof.
  intros Hnd Hin Hsp HL HI Hts.
  destruct (spawn_run id ts s sp Hnd Hin Hsp HI)
    as [E1 [E2 [[sp' [F1 [_ [_ [F3 [F4 F5]]]]]] E4]]].
  rewrite HL in E2, F4. split; [|split; [exact E1|split; [exact E2|split; [|split]]]].
  - intros now ts' Hnow. cbn [spawn_times]. unfold spawner_due_at, spawner_due.
    rewrite Hsp, HL.
    assert (Hd : Qlt_bool (or_default (Some (interval sp))) (now - 0) = true).
    { apply Qlt_bool_iff. lra. }
    rewrite Hd. reflexivity.
  - clear F1 F4 F5 E4. apply spaced_tail in E2.
    destruct (spawn_times id ts s) as [|e rest] eqn:Hes; [left; reflexivity|right].
    pose proof (spaced_span _ rest e E2) as Hspan.
    rewrite List.Forall_forall in Hts.
    assert (He : t0 <= e) by (apply (Hts e), E1; left; reflexivity).
    assert (Hl : List.last rest e <= t).
    { rewrite <- (last_cons_shift rest e 0). apply (Hts _), E1, last_in. }
    replace (Z.of_nat (length (e :: rest)) - 1)%Z with (Z.of_nat (length rest))
      by (cbn [length]; lia).
    lra.
  - exists sp'. split; [exact F1|]. split; [exact F3|]. split; [exact F4|exact F5].
  - exact E4.
Qed.

Lemma spawner_emission_bound_witness :
  let s := snd (addSpawner 10 20 None (snd (addSpawner 0 0 None emptyEM))) in
  let ts := [10016; 10032; 11600; 13200] in
  let sp := mkSpawner 10 20 0 1500 in
  spawn_times 1 ts s = [10016; 11600; 13200] /\
  ((forall now ts', or_default (Some (interval sp)) < now ->
     spawn_times 1 (now :: ts') s = now :: spawn_times 1 ts' (updateSpawners now s)) /\
  incl (spawn_times 1 ts s) ts /\
  spaced_by (or_default (Some (interval sp))) (0 :: spawn_times 1 ts s) /\
  (spawn_times 1 ts s = [] \/
   inject_Z (Z.of_nat (length (spawn_times 1 ts s)) - 1) * or_default (Some (interval sp))
     <= 13200 - 10000) /\
  (exists sp', sheap (run_ticks ts s) !! 1%nat = Some sp' /\ interval sp' = interval sp /\
     lastSpawn sp' = List.last (spawn_times 1 ts s) 0 /\
     (ts <> [] -> List.last ts 0 - lastSpawn sp' <= or_default (Some (interval sp)))) /\
  (spawners s = [1%nat] ->
     length (balls (run_ticks ts s)) = (length (balls s) + length (spawn_times 1 ts s))%nat)).
Proof.
  intros s ts sp. split; [vm_compute; reflexivity|].
  assert (Hnd : NoDup (spawners s)).
  { vm_compute. constructor; [|apply NoDup_singleton]. intro H.
    apply list_elem_of_singleton in H. discriminate. }
  assert (Hin : In 1%nat (spawners s)) by (vm_compute; right; left; reflexivity).
  assert (Hsp : sheap s !! 1%nat = Some sp) by (vm_compute; reflexivity).
  assert (Hts : Forall (fun u => 10000 <= u <= 13200) ts).
  { repeat constructor; vm_compute; discriminate. }
  exact (spawner_emission_bound ts s 1 sp 10000 13200 Hnd Hin Hsp eq_refl
           ltac:(vm_compute; reflexivity) Hts).
Defined.

(** ** C1: undo / redo round trip *)


(** The other failures come from commands holding object references that
    undo or redo of an earlier command replaces: [AddLineCommand] then
    [MoveLineCommand] on the new line, undone twice and redone twice, leaves
    the line at its first position, since the re-added line is a new object
    and the move applies to the old one. *)
Example stale_move_after_redo :
  let '(s1, h1) := run_actions [NewAddLine 0 0 100 0; NewMoveLine 0 0 0 200 0] emptyEM defaultHistory in
  let '(s2, h2) := undo_times 2 s1 h1 in
  let '(s3, _) := redo_times 2 s2 h2 in
  line_view s1 = [(0, 0, 200, 0)] /\ line_view s2 = [] /\ line_view s3 = [(0, 0, 100, 0)].
Proof. vm_compute. repeat split. Qed.

(** Every identity in the collections was allocated. *)
Definition WF_b (s : EM) : bool :=
  forallb (fun i => Nat.ltb i (next_obj s)) (lines s) &&
  forallb (fun i => Nat.ltb i (next_obj s)) (spawners s).

Definition WF (s : EM) : Prop :=
  (forall i, In i (lines s) -> (i < next_obj s)%nat) /\
  (forall i, In i (spawners s) -> (i < next_obj s)%nat).









Lemma WF_b_WF (s : EM) : WF_b s = true -> WF s.
Proof.
  unfold WF_b, WF. rewrite andb_true_iff, !forallb_forall.
  intros [H1 H2]. split; intros i Hi; apply Nat.ltb_lt; auto.
Qed.

Lemma line_data_insert (h : gmap nat Line) (k i : nat) (l : Line) :
  line_data (<[k := l]> h) i =
  if Nat.eq_dec i k then Some (x1 l, y1 l, x2 l, y2 l) else line_data h i.
Proof.
  unfold line_data. destruct (Nat.eq_dec i k) as [->|Hne].
  - rewrite lookup_insert_eq. reflexivity.
  - rewrite lookup_insert_ne by congruence. reflexivity.
Qed.

Lemma spawner_data_insert (h : gmap nat Spawner) (k i : nat) (sp : Spawner) :
  spawner_data (<[k := sp]> h) i =
  if Nat.eq_dec i k then Some (sx sp, sy sp) else spawner_data h i.
Proof.
  unfold spawner_data. destruct (Nat.eq_dec i k) as [->|Hne].
  - rewrite lookup_insert_eq. reflexivity.
  - rewrite lookup_insert_ne by congruence. reflexivity.
Qed.



Lemma addLine_accept (a b c d : Q) (s : EM) :
  hypot_lt (c - a) (d - b) ENTITY_minLineLength = false ->
  exists s', addLine a b c d s = (Some (next_obj s), s') /\
    lines s' = lines s ++ [next_obj s] /\ spawners s' = spawners s /\
    sheap s' = sheap s /\ next_obj s' = S (next_obj s) /\
    (forall i, line_data (lheap s') i =
       if Nat.eq_dec i (next_obj s) then Some (a, b, c, d) else line_data (lheap s) i).
Proof.
  intro H. unfold addLine, newLine, alloc_body, alloc_obj. rewrite H.
  eexists. split; [reflexivity|]. cbn.
  repeat split. intro i. rewrite line_data_insert. reflexivity.
Qed.

Lemma addLine_reject (a b c d : Q) (s : EM) :
  hypot_lt (c - a) (d - b) ENTITY_minLineLength = true -> addLine a b c d s = (None, s).
Proof. intro H. unfold addLine. rewrite H. reflexivity. Qed.

Lemma addSpawner_fields (x y : Q) (s : EM) :
  exists s', addSpawner x y None s = (next_obj s, s') /\
    lines s' = lines s /\ spawners s' = spawners s ++ [next_obj s] /\
    lheap s' = lheap s /\ next_obj s' = S (next_obj s) /\
    (forall i, spawner_data (sheap s') i =
       if Nat.eq_dec i (next_obj s) then Some (x, y) else spawner_data (sheap s) i).
Proof.
  unfold addSpawner, alloc_obj. eexists. split; [reflexivity|]. cbn.
  repeat split. intro i. rewrite spawner_data_insert. reflexivity.
Qed.

Lemma updateLinePosition_fields (l : nat) (a b c d : Q) (s : EM) :
  let s' := updateLinePosition l a b c d s in
  lines s' = lines s /\ spawners s' = spawners s /\ sheap s' = sheap s /\
  next_obj s' = next_obj s /\
  (forall i, line_data (lheap s') i =
     if Nat.eq_dec i l
     then match lheap s !! l with Some _ => Some (a, b, c, d) | None => None end
     else line_data (lheap s) i).
Proof.
  unfold updateLinePosition, updatePosition, alloc_body.
  destruct (lheap s !! l) as [ln|] eqn:Hl; cbn.
  - repeat split. intro i. rewrite line_data_insert. reflexivity.
  - repeat split. intro i.
    destruct (Nat.eq_dec i l) as [->|]; [unfold line_data; rewrite Hl|]; reflexivity.
Qed.



Lemma removeLine_fields (k : nat) (s : EM) :
  let s' := removeLine (Some k) s in
  lheap s' = lheap s /\ sheap s' = sheap s /\ spawners s' = spawners s /\
  next_obj s' = next_obj s /\
  lines s' = match lheap s !! k with Some _ => removeFromArray k (lines s) | None => lines s end.
Proof. unfold removeLine. destruct (lheap s !! k); repeat split. Qed.


Lemma removeFromArray_snoc_fresh (i : nat) (l : list nat) :
  ~ In i l -> removeFromArray i (l ++ [i]) = l.
Proof.
  induction l as [|k l IH]; simpl; intro H.
  - rewrite Nat.eqb_refl. reflexivity.
  - destruct (Nat.eqb k i) eqn:E.
    + apply Nat.eqb_eq in E. subst. exfalso. apply H. left. reflexivity.
    + rewrite IH; [reflexivity|]. intro H'. apply H. right. exact H'.
Qed.





















Lemma omap_agree_in {X} (f g : nat -> option X) (l : list nat) :
  (forall i, In i l -> f i = g i) -> omap f l = omap g l.
Proof.
  induction l as [|i l IH]; intro H; [reflexivity|]. simpl.
  rewrite (H i (or_introl eq_refl)).
  assert (E : omap f l = omap g l) by (apply IH; intros j Hj; apply H; right; exact Hj).
  destruct (g i); [f_equal|]; exact E.
Qed.







(** * Further behaviour of the manager, the commands and the history *)

(** ** Shared facts *)

Lemma pop_some {A} (l : list A) (x : A) (r : list A) :
  pop l = Some (x, r) -> l = r ++ [x].
Proof.
  unfold pop. intro H. destruct (rev l) as [|y t] eqn:E; [discriminate|].
  injection H as <- <-. rewrite <- (rev_involutive l), E. reflexivity.
Qed.

Lemma pop_none {A} (l : list A) : pop l = None -> l = [].
Proof.
  unfold pop. intro H. destruct (rev l) as [|y t] eqn:E; [|discriminate].
  rewrite <- (rev_involutive l), E. reflexivity.
Qed.

Lemma omap_snoc {X} (f : nat -> option X) (l : list nat) (i : nat) :
  omap f (l ++ [i]) = omap f l ++ match f i with Some x => [x] | None => [] end.
Proof.
  induction l as [|j l IH]; simpl.
  - destruct (f i); reflexivity.
  - destruct (f j); [|exact IH]. change (x :: omap f (l ++ [i]) =
      x :: (omap f l ++ match f i with Some x => [x] | None => [] end)).
    f_equal. exact IH.
Qed.

Lemma NoDup_snoc_notin (r : list nat) (x : nat) : NoDup (r ++ [x]) -> ~ In x r.
Proof.
  intros H Hin. apply NoDup_app in H as [_ [H _]].
  apply (H x); [apply list_elem_of_In; exact Hin|]. apply list_elem_of_singleton. reflexivity.
Qed.

Lemma history_execute_state (c : Command) (s : EM) (h : History) :
  fst (history_execute c s h) = snd (execute c s).
Proof. unfold history_execute. destruct (execute c s). reflexivity. Qed.

(** With room for one command, [history.execute] leaves the executed
    command on top of the undo stack. *)
Lemma history_execute_top (c : Command) (s : EM) (h : History) :
  (0 < maxHistorySize h)%nat ->
  exists u, undoStack (snd (history_execute c s h)) = u ++ [fst (execute c s)].
Proof.
  intro Hm. unfold history_execute. destruct (execute c s) as [c' s'] eqn:E. simpl.
  destruct (Nat.ltb _ _) eqn:Hlt.
  - destruct (undoStack h) as [|u0 u] eqn:Hu.
    + simpl in Hlt. apply Nat.ltb_lt in Hlt. lia.
    + exists u. reflexivity.
  - exists (undoStack h). reflexivity.
Qed.

(** ** [removeLastLine] and the controller's Backspace *)

(** [removeLastLine()]: [this.lines.pop()], then the line's body leaves the
    world. *)
Definition removeLastLine (s : EM) : EM :=
  match pop (lines s) with
  | None => s
  | Some (id, rest) =>
      let s1 := set_lines rest s in
      match lheap s !! id with
      | Some l => set_world (removeBody (lbody l) (world s1)) s1
      | None => s1
      end
  end.

(** [InteractionController.handleBackspace()]: a [RemoveLineCommand] on the
    last line, run through [history.execute]. *)
Definition handleBackspace (s : EM) (h : History) : EM * History :=
  match pop (lines s) with
  | None => (s, h)
  | Some (lastLine, _) => history_execute (build (NewRemoveLine lastLine) s) s h
  end.

(** The undoable Backspace of the controller does to the manager what
    [removeLastLine()] does, when every line in the collection is an
    allocated object listed once; with no line, both change nothing. *)
Theorem handleBackspace_removeLastLine (s : EM) (h : History) :
  NoDup (lines s) -> Forall (fun i => is_Some (lheap s !! i)) (lines s) ->
  fst (handleBackspace s h) = removeLastLine s.
Proof.
  intros Hnd Hal. rewrite List.Forall_forall in Hal. unfold handleBackspace, removeLastLine.
  destruct (pop (lines s)) as [[x r]|] eqn:Hp; [|reflexivity].
  rewrite history_execute_state. apply pop_some in Hp.
  destruct (Hal x) as [l Hl]. { rewrite Hp. apply in_or_app. right. left. reflexivity. }
  cbn [build execute snd]. unfold removeLine. rewrite Hl.
  assert (Hx : ~ In x r) by (rewrite Hp in Hnd; exact (NoDup_snoc_notin r x Hnd)).
  unfold set_lines, set_world. simpl. rewrite Hp, removeFromArray_snoc_fresh by exact Hx.
  reflexivity.
Qed.

(** Backspace then [history.undo()] brings the last line back, at the end
    of the collection as a new object with the same endpoints, when that
    line is at least [minLineLength] long. *)
Theorem handleBackspace_undo_restores (s : EM) (h : History) (r : list nat) (id : nat) (l : Line) :
  WF s -> NoDup (lines s) -> lines s = r ++ [id] -> lheap s !! id = Some l ->
  hypot_lt (x2 l - x1 l) (y2 l - y1 l) ENTITY_minLineLength = false ->
  (0 < maxHistorySize h)%nat ->
  let '(s1, h1) := handleBackspace s h in
  let '(ok, s2, _) := history_undo s1 h1 in
  ok = true /\ lines s2 = r ++ [next_obj s] /\
  line_view s2 = line_view s /\ spawner_view s2 = spawner_view s.
Proof.
  intros Hwf Hnd Hls Hl Hlong Hm.
  assert (Hx : ~ In id r) by (rewrite Hls in Hnd; exact (NoDup_snoc_notin r id Hnd)).
  unfold handleBackspace. rewrite Hls, pop_push.
  set (c := build (NewRemoveLine id) s).
  assert (Hc : execute c s = (c, removeLine (Some id) s)) by reflexivity.
  destruct (history_execute_top c s h Hm) as [u Hu].
  pose proof (history_execute_state c s h) as Hst.
  destruct (history_execute c s h) as [s1 h1]. cbn [fst snd] in Hu, Hst.
  rewrite Hc in Hu, Hst. cbn [fst snd] in Hu, Hst. subst s1.
  unfold history_undo. rewrite Hu, pop_push.
  unfold c, build, line_obj. rewrite Hl. cbn [undo].
  destruct (removeLine_fields id s) as [Hlh [Hsh [Hsp [Hno Hln]]]].
  set (s1 := removeLine (Some id) s) in *.
  rewrite Hl, Hls, removeFromArray_snoc_fresh in Hln by exact Hx.
  destruct (addLine_accept (x1 l) (y1 l) (x2 l) (y2 l) s1 Hlong)
    as [s2 [Ha [Hl2 [Hs2 [Hsh2 [Hno2 Hd2]]]]]].
  rewrite Ha. cbn [fst snd]. rewrite Hno in Hl2, Hd2.
  split; [reflexivity|]. split; [rewrite Hl2, Hln; reflexivity|]. split.
  - unfold line_view. rewrite Hl2, Hln, Hls, !omap_snoc.
    rewrite Hd2. destruct (Nat.eq_dec (next_obj s) (next_obj s)) as [_|C]; [|congruence].
    unfold line_data at 3. rewrite Hl. f_equal.
    apply omap_agree_in. intros i Hi.
    assert (Hlt : (i < next_obj s)%nat).
    { apply (proj1 Hwf). rewrite Hls. apply in_or_app. left. exact Hi. }
    rewrite Hd2. destruct (Nat.eq_dec i (next_obj s)) as [->|_]; [lia|].
    rewrite Hlh. reflexivity.
  - unfold spawner_view. rewrite Hs2, Hsh2, Hsp, Hsh. reflexivity.
Qed.

(** A line shorter than [minLineLength] (a line can be dragged shorter)
    does not come back: Backspace then [history.undo()] leaves the
    collection without it, and the undone command now holds [null]. *)
Theorem handleBackspace_undo_short_lost (s : EM) (h : History) (r : list nat) (id : nat) (l : Line) :
  NoDup (lines s) -> lines s = r ++ [id] -> lheap s !! id = Some l ->
  hypot_lt (x2 l - x1 l) (y2 l - y1 l) ENTITY_minLineLength = true ->
  (0 < maxHistorySize h)%nat ->
  let '(s1, h1) := handleBackspace s h in
  let '(ok, s2, h2) := history_undo s1 h1 in
  ok = true /\ lines s2 = r /\ lheap s2 = lheap s /\ spawners s2 = spawners s /\
  redoStack h2 = redoStack h1 ++ [RemoveLineCommand None (x1 l) (y1 l) (x2 l) (y2 l)].
Proof.
  intros Hnd Hls Hl Hshort Hm.
  assert (Hx : ~ In id r) by (rewrite Hls in Hnd; exact (NoDup_snoc_notin r id Hnd)).
  unfold handleBackspace. rewrite Hls, pop_push.
  set (c := build (NewRemoveLine id) s).
  assert (Hc : execute c s = (c, removeLine (Some id) s)) by reflexivity.
  destruct (history_execute_top c s h Hm) as [u Hu].
  pose proof (history_execute_state c s h) as Hst.
  destruct (history_execute c s h) as [s1 h1]. cbn [fst snd] in Hu, Hst.
  rewrite Hc in Hu, Hst. cbn [fst snd] in Hu, Hst. subst s1.
  unfold history_undo. rewrite Hu, pop_push.
  unfold c, build, line_obj. rewrite Hl. cbn [undo].
  rewrite addLine_reject by exact Hshort. cbn.
  destruct (removeLine_fields id s) as [Hlh [Hsh [Hsp [Hno Hln]]]].
  rewrite Hl, Hls, removeFromArray_snoc_fresh in Hln by exact Hx.
  repeat split; assumption.
Qed.

(** ** Spawner rhythm: [setSpawnerInterval] and the mouse wheel *)

(** [setSpawnerInterval(spawner, interval)]: clamp to [100, 5000] ms. *)
Definition setSpawnerInterval (spawner : option nat) (ival : Q) (s : EM) : EM :=
  match spawner with
  | None => s
  | Some id =>
      match sheap s !! id with
      | Some sp =>
          set_sheap (<[id := mkSpawner (sx sp) (sy sp) (lastSpawn sp)
                                       (Qmax 100 (Qmin 5000 ival))]> (sheap s)) s
      | None => s
      end
  end.

(** [Game.handleWheel(delta, pos)]: the spawner within 50 px of the
    pointer gets [(spawner.interval || 1500) + delta * 50]. *)
Definition handleWheel (delta px py : Q) (s : EM) : EM :=
  let spawner := findNearestSpawner px py 50 s in
  match spawner with
  | None => s
  | Some id =>
      match sheap s !! id with
      | Some sp =>
          let currentInterval := if Qeq_bool (interval sp) 0 then 1500 else interval sp in
          let newInterval := currentInterval + delta * 50 in
          setSpawnerInterval spawner newInterval s
      | None => s
      end
  end.

Lemma findNearestSpawner_in (x y th : Q) (s : EM) (id : nat) :
  findNearestSpawner x y th s = Some id ->
  In id (spawners s) /\ exists sp, sheap s !! id = Some sp /\ hypot_lt (sx sp - x) (sy sp - y) th = true.
Proof.
  unfold findNearestSpawner. generalize (spawners s) as ss. intros ss.
  induction ss as [|j ss IH]; simpl; [discriminate|].
  destruct (sheap s !! j) as [sp|] eqn:Hj.
  - destruct (hypot_lt (sx sp - x) (sy sp - y) th) eqn:Hh.
    + intro E. injection E as <-. split; [left; reflexivity|]. eauto.
    + intro E. destruct (IH E) as [Hin Hex]. split; [right; exact Hin|exact Hex].
  - intro E. destruct (IH E) as [Hin Hex]. split; [right; exact Hin|exact Hex].
Qed.

(** The mouse wheel over a spawner leaves its interval within [100, 5000]
    ms, and moves it by exactly [50 * delta] ms from its current (or
    default) interval when that stays in range; the spawner keeps its
    position and last emission time, no other spawner object changes, and
    the collections, lines, balls and world are untouched. *)
Theorem handleWheel_interval (delta px py : Q) (s : EM) (id : nat) (sp : Spawner) :
  findNearestSpawner px py 50 s = Some id -> sheap s !! id = Some sp ->
  let s' := handleWheel delta px py s in
  let target := (if Qeq_bool (interval sp) 0 then 1500 else interval sp) + delta * 50 in
  (exists sp', sheap s' !! id = Some sp' /\
     sx sp' = sx sp /\ sy sp' = sy sp /\ lastSpawn sp' = lastSpawn sp /\
     100 <= interval sp' <= 5000 /\
     (100 <= target <= 5000 -> interval sp' == target)) /\
  (forall j, j <> id -> sheap s' !! j = sheap s !! j) /\
  lheap s' = lheap s /\ lines s' = lines s /\ spawners s' = spawners s /\
  balls s' = balls s /\ world s' = world s.
Proof.
  intros Hf Hs. unfold handleWheel. rewrite Hf, Hs. cbn zeta.
  unfold setSpawnerInterval. rewrite Hs. cbn [sheap lheap lines spawners balls world set_sheap].
  set (target := (if Qeq_bool (interval sp) 0 then 1500 else interval sp) + delta * 50).
  split; [|split; [|repeat split]].
  - eexists. rewrite lookup_insert_eq. split; [reflexivity|]. cbn [sx sy lastSpawn interval].
    repeat split.
    + apply Q.le_max_l.
    + apply Q.max_lub; [discriminate|apply Q.le_min_l].
    + intros [H1 H2]. rewrite Q.min_r by exact H2. rewrite Q.max_r by exact H1. reflexivity.
  - intros j Hj. rewrite lookup_insert_ne by congruence. reflexivity.
Qed.

(** ** Bounded history *)

(** The controller's direct push after a drag ([InteractionController],
    [handleMouseUp]): [undoStack.push(cmd)], [redoStack = []], and a
    [shift()] when the stack outgrows [maxHistorySize]. *)
Definition history_push (cmd : Command) (h : History) : History :=
  let u := undoStack h ++ [cmd] in
  let u' := if Nat.ltb (maxHistorySize h) (length u) then tail u else u in
  mkHistory u' [] (maxHistorySize h).

(** What a caller does with the history: [execute(cmd)], [undo()],
    [redo()], or the controller's direct push. *)
Inductive HistoryCall :=
| CallExecute (c : Command)
| CallUndo
| CallRedo
| CallPush (c : Command).

Definition history_call (k : HistoryCall) (s : EM) (h : History) : EM * History :=
  match k with
  | CallExecute c => history_execute c s h
  | CallUndo => let '(_, s', h') := history_undo s h in (s', h')
  | CallRedo => let '(_, s', h') := history_redo s h in (s', h')
  | CallPush c => (s, history_push c h)
  end.

Fixpoint history_calls (ks : list HistoryCall) (s : EM) (h : History) : EM * History :=
  match ks with
  | [] => (s, h)
  | k :: ks' => let '(s1, h1) := history_call k s h in history_calls ks' s1 h1
  end.

Definition history_ok (h : History) : Prop :=
  (length (undoStack h) + length (redoStack h) <= maxHistorySize h)%nat.

Lemma pop_length {A} (l : list A) (x : A) (r : list A) :
  pop l = Some (x, r) -> length l = S (length r).
Proof. intro H. apply pop_some in H. subst l. rewrite length_app. simpl. lia. Qed.

Lemma push_bound {A} (m : nat) (l : list A) (x : A) :
  (length l <= m)%nat ->
  (length (if Nat.ltb m (length (l ++ [x])) then tail (l ++ [x]) else l ++ [x]) <= m)%nat.
Proof.
  intro H. destruct (Nat.ltb m (length (l ++ [x]))) eqn:E.
  - apply Nat.ltb_lt in E. rewrite length_app in E. simpl in E.
    destruct l as [|y l]; simpl in *; [lia|]. rewrite length_app. simpl. lia.
  - apply Nat.ltb_ge in E. exact E.
Qed.

Lemma history_call_ok (k : HistoryCall) (s : EM) (h : History) :
  history_ok h -> history_ok (snd (history_call k s h)) /\
                  maxHistorySize (snd (history_call k s h)) = maxHistorySize h.
Proof.
  unfold history_ok. intro H. destruct k as [c| | |c]; cbn [history_call].
  - unfold history_execute. destruct (execute c s) as [c' s']. simpl.
    split; [|reflexivity]. rewrite Nat.add_0_r. apply push_bound. lia.
  - unfold history_undo. destruct (pop (undoStack h)) as [[c u]|] eqn:E; [|split; [exact H|reflexivity]].
    destruct (undo c s) as [c' s']. simpl. apply pop_length in E.
    rewrite length_app. simpl. split; [lia|reflexivity].
  - unfold history_redo. destruct (pop (redoStack h)) as [[c r]|] eqn:E; [|split; [exact H|reflexivity]].
    destruct (execute c s) as [c' s']. simpl. apply pop_length in E.
    rewrite length_app. simpl. split; [lia|reflexivity].
  - simpl. split; [|reflexivity]. rewrite Nat.add_0_r. apply push_bound. lia.
Qed.

(** Whatever sequence of [execute], [undo], [redo] and direct pushes a
    fresh [CommandHistory(maxHistorySize)] goes through, its undo and redo
    stacks together never hold more than [maxHistorySize] commands: [redo()]
    pushes without the size check, but only commands that [undo()] took
    off the undo stack. *)
Theorem history_size_bound (m : nat) (ks : list HistoryCall) (s : EM) :
  let h := snd (history_calls ks s (newHistory m)) in
  (length (undoStack h) + length (redoStack h) <= m)%nat.
Proof.
  cut (forall ks s h, history_ok h ->
         history_ok (snd (history_calls ks s h)) /\
         maxHistorySize (snd (history_calls ks s h)) = maxHistorySize h).
  { intros Hc. destruct (Hc ks s (newHistory m)) as [H1 H2]; [unfold history_ok; simpl; lia|].
    unfold history_ok in H1. rewrite H2 in H1. exact H1. }
  clear. intros ks. induction ks as [|k ks IH]; intros s h H; simpl; [split; [exact H|reflexivity]|].
  pose proof (history_call_ok k s h H) as [H1 H2].
  destruct (history_call k s h) as [s1 h1]. simpl in H1, H2.
  destruct (IH s1 h1 H1) as [H3 H4]. split; [exact H3|]. rewrite H4. exact H2.
Qed.

Lemma Qle_bool_false (a b : Q) : Qle_bool a b = false -> b < a.
Proof. intro H. apply Qnot_le_lt. intro H'. apply Qle_bool_iff in H'. congruence. Qed.

(** ** Fixed-step physics ([PhysicsEngine.update]) *)

(** [PHYSICS_CONFIG.fixedTimeStepHz = 240], [maxSubSteps = 4]. *)
Definition fixedTimeStep : Q := 1000 / 240.
Definition maxSubSteps : nat := 4.

(** The [while] loop of [update]: at most [maxSubSteps] iterations, each
    one a [Matter.Engine.update(engine, fixedTimeStep)].  Returns the
    accumulator and [subSteps]. *)
Fixpoint substep_loop (fuel : nat) (acc : Q) (subSteps : nat) : Q * nat :=
  match fuel with
  | O => (acc, subSteps)
  | S f =>
      if Qle_bool fixedTimeStep acc && Nat.ltb subSteps maxSubSteps
      then substep_loop f (acc - fixedTimeStep) (S subSteps)
      else (acc, subSteps)
  end.

(** [update(delta)] from accumulator [acc]: the new accumulator and the
    number of engine steps run. *)
Definition PhysicsEngine_update (delta acc : Q) : Q * nat :=
  let delta' := Qmin delta (1000 / 30) in
  let '(acc', subSteps) := substep_loop maxSubSteps (acc + delta') 0 in
  (if Nat.leb maxSubSteps subSteps then 0 else acc', subSteps).


Ltac Qnat := cbv [Z.of_nat inject_Z Pos.of_succ_nat Pos.succ] in *.

(** The frame-time constants as literals [lra] reads. *)
Ltac Qconst :=
  change (1000 / 240) with (1000 # 240) in *;
  change (1000 / 30) with (1000 # 30) in *;
  change (1000 / 60) with (1000 # 60) in *.

Ltac loop_cases :=
  repeat match goal with
  | |- context [Qle_bool ?a ?b] =>
      let E := fresh "E" in
      destruct (Qle_bool a b) eqn:E;
      [apply Qle_bool_iff in E | apply Qle_bool_false in E]; cbn
  end.

(** The step run by [update]: the accumulator after [k] steps. *)
Lemma substep_loop_shape (acc : Q) :
  let '(acc', n) := substep_loop maxSubSteps acc 0 in
  (n <= maxSubSteps)%nat /\ acc' == acc - inject_Z (Z.of_nat n) * fixedTimeStep /\
  ((n < maxSubSteps)%nat -> acc' < fixedTimeStep) /\
  (forall k, (k < n)%nat -> fixedTimeStep <= acc - inject_Z (Z.of_nat k) * fixedTimeStep).
Proof.
  unfold substep_loop, maxSubSteps. cbn [Nat.ltb Nat.leb andb].
  loop_cases. all: split; [lia|]. all: split; [unfold fixedTimeStep in *; simpl; ring|].
  all: split; [intro; first [lia | unfold fixedTimeStep in *; lra]|].
  all: intros k Hk; (destruct k as [|[|[|[|k]]]]; [..|lia]).
  all: try lia. all: unfold fixedTimeStep in *; Qnat; lra.
Qed.

(** Starting from an accumulator in [0, fixedTimeStep) and a frame time
    [delta >= 0], [update] runs at most [maxSubSteps] engine steps and
    leaves the accumulator in [0, fixedTimeStep) again. *)
Theorem PhysicsEngine_update_invariant (delta acc : Q) :
  0 <= acc < fixedTimeStep -> 0 <= delta ->
  let '(acc', n) := PhysicsEngine_update delta acc in
  (n <= maxSubSteps)%nat /\ 0 <= acc' < fixedTimeStep.
Proof.
  intros [H0 H1] Hd. unfold PhysicsEngine_update.
  pose proof (substep_loop_shape (acc + Qmin delta (1000 / 30))) as Hs.
  destruct (substep_loop maxSubSteps (acc + Qmin delta (1000 / 30)) 0) as [a n].
  destruct Hs as [Hn [Ha [Hlt Hk]]]. split; [exact Hn|].
  destruct (Nat.leb maxSubSteps n) eqn:E.
  - split; [apply Qle_refl|unfold fixedTimeStep; reflexivity].
  - apply Nat.leb_gt in E. split; [|exact (Hlt E)].
    assert (Hm : 0 <= Qmin delta (1000 / 30)) by (apply Q.min_glb; [exact Hd|discriminate]).
    destruct n as [|n].
    + rewrite Ha. Qnat. lra.
    + assert (Hn' : (n < S n)%nat) by lia. specialize (Hk n Hn').
      rewrite Ha. rewrite Nat2Z.inj_succ, <- Z.add_1_r, inject_Z_plus. change (inject_Z 1) with 1.
      unfold fixedTimeStep in *. simpl. lra.
Qed.

(** The simulated time [update] accounts for: without hitting the cap of
    [maxSubSteps], the steps run plus the new accumulator add up to the
    old accumulator plus the frame time capped at [1000/30] ms.  A frame of
    at least 20 ms from a non-negative accumulator always runs the 4 steps
    and drops the rest of the accumulator.  The 20 ms bound keeps a margin
    over [4 * fixedTimeStep] (about 16.7 ms): at exactly [1000/60] ms the
    number of steps depends on the rounding of the subtractions, and IEEE
    doubles run only 3 there. *)
Theorem PhysicsEngine_update_time (delta acc : Q) :
  let '(acc', n) := PhysicsEngine_update delta acc in
  ((n < maxSubSteps)%nat ->
     acc' + inject_Z (Z.of_nat n) * fixedTimeStep == acc + Qmin delta (1000 / 30)) /\
  (0 <= acc -> 20 <= delta -> n = maxSubSteps /\ acc' = 0).
Proof.
  unfold PhysicsEngine_update.
  pose proof (substep_loop_shape (acc + Qmin delta (1000 / 30))) as Hs.
  destruct (substep_loop maxSubSteps (acc + Qmin delta (1000 / 30)) 0) as [a n].
  destruct Hs as [Hn [Ha [Hlt Hk]]]. split.
  - intro E. assert (E' : Nat.leb maxSubSteps n = false) by (apply Nat.leb_gt; exact E).
    rewrite E'. rewrite Ha. ring.
  - intros H0 Hd.
    assert (Hm : 20 <= Qmin delta (1000 / 30)) by (apply Q.min_glb; [exact Hd|discriminate]).
    assert (Hn4 : n = maxSubSteps).
    { destruct (Nat.eq_dec n maxSubSteps) as [->|Hne]; [reflexivity|].
      assert (E : (n < maxSubSteps)%nat) by lia. specialize (Hlt E). rewrite Ha in Hlt.
      unfold maxSubSteps, fixedTimeStep in *.
      destruct n as [|[|[|[|n]]]]; [..|lia]; clear Hk; Qnat; Qconst; exfalso; lra. }
    subst n. split; reflexivity.
Qed.

(** ** The ball's trail ([Ball.update]) *)

(** [maxTrailLength = 10]. *)
Definition maxTrailLength : nat := 10.

(** The trail half of [Ball.update()]: push the body's position, then
    [shift()] once if the trail is longer than [maxTrailLength]. *)
Definition trail_update (pos : Q * Q) (trail : list (Q * Q)) : list (Q * Q) :=
  let t := trail ++ [pos] in
  if Nat.ltb maxTrailLength (length t) then tail t else t.

Lemma skipn_snoc_tail {A} (k : nat) (l : list A) (x : A) :
  (k <= length l)%nat ->
  skipn k (l ++ [x]) = skipn k l ++ [x].
Proof.
  revert l. induction k as [|k IH]; intros l H; [reflexivity|].
  destruct l as [|y l]; simpl in *; [lia|]. apply IH. lia.
Qed.

Lemma tail_skipn {A} (k : nat) (l : list A) : tail (skipn k l) = skipn (S k) l.
Proof.
  revert l. induction k as [|k IH]; intros l; [destruct l; reflexivity|].
  destruct l as [|y l]; [reflexivity|]. simpl. apply IH.
Qed.

(** After a ball's [update()] has run on the positions [ps], from the
    empty trail of [new Ball], the trail holds the last
    [maxTrailLength] positions (all of them while there are fewer), oldest
    first. *)
Theorem trail_last_positions (ps : list (Q * Q)) :
  fold_left (fun t p => trail_update p t) ps [] = skipn (length ps - maxTrailLength) ps.
Proof.
  induction ps as [|p ps IH] using rev_ind; [reflexivity|].
  rewrite fold_left_app, IH. cbn [fold_left]. unfold trail_update, maxTrailLength.
  rewrite !length_app, length_skipn. cbn [length].
  rewrite <- (skipn_snoc_tail (length ps - 10) ps p) by lia.
  destruct (Nat.ltb 10 (length ps - (length ps - 10) + 1)) eqn:E.
  - apply Nat.ltb_lt in E. rewrite tail_skipn. f_equal. lia.
  - apply Nat.ltb_ge in E. f_equal. lia.
Qed.

(** ** Notes from line lengths ([getNoteFromLength], [constants.js]) *)

Module Music.
Import String.

(** [MUSIC_CONFIG.notes]: the A minor pentatonic scale from A2 to A4. *)
Definition notes : list string :=
  ["A2"; "C3"; "D3"; "E3"; "G3"; "A3"; "C4"; "D4"; "E4"; "G4"; "A4"]%string.

Definition maxLineLength : Q := 1200.

(** The [noteIndex] of [getNoteFromLength]. *)
Definition noteIndex (len : Q) : Z :=
  Qfloor (Qmin (len / maxLineLength) 1 * inject_Z (Z.of_nat (List.length notes) - 1)).

(** [getNoteFromLength(length)]: [notes[noteIndex]], [undefined] ([None])
    at a negative index. *)
Definition getNoteFromLength (len : Q) : option string :=
  if (noteIndex len <? 0)%Z then None else nth_error notes (Z.to_nat (noteIndex len)).

Lemma noteIndex_floor (len : Q) :
  noteIndex len = Qfloor (Qmin (len * (1 # 1200)) 1 * 10).
Proof. reflexivity. Qed.

Lemma Qfloor_between (x : Q) (z : Z) :
  inject_Z z <= x -> x < inject_Z z + 1 -> Qfloor x = z.
Proof.
  intros H1 H2. pose proof (Qfloor_le x) as F1. pose proof (Qlt_floor x) as F2.
  assert (A : (Qfloor x <= z)%Z).
  { apply Zlt_succ_le. rewrite <- Z.add_1_r, Zlt_Qlt, inject_Z_plus.
    change (inject_Z 1) with 1. lra. }
  assert (B : (z <= Qfloor x)%Z).
  { apply Qfloor_resp_le in H1. rewrite Qfloor_Z in H1. exact H1. }
  lia.
Qed.

Lemma noteIndex_range (len : Q) :
  (0 <= len -> (0 <= noteIndex len <= 10)%Z) /\ (len < 0 -> (noteIndex len < 0)%Z).
Proof.
  rewrite noteIndex_floor. set (x := Qmin (len * (1 # 1200)) 1 * 10).
  pose proof (Qfloor_le x) as F1. pose proof (Qlt_floor x) as F2.
  rewrite inject_Z_plus in F2. change (inject_Z 1) with 1 in F2.
  assert (Hx : x == (if Qle_bool (len * (1 # 1200)) 1 then len * (1 # 1200) else 1) * 10).
  { unfold x. destruct (Qle_bool (len * (1 # 1200)) 1) eqn:E.
    - apply Qle_bool_iff in E. rewrite Q.min_l by exact E. reflexivity.
    - apply Qle_bool_false in E. rewrite Q.min_r by (apply Qlt_le_weak; exact E). reflexivity. }
  split.
  - intro H. split.
    + rewrite Zle_Qle. apply Qnot_lt_le. intro C.
      assert (C' : inject_Z (Qfloor x) <= -1).
      { change (-1) with (inject_Z (-1)). rewrite <- Zle_Qle. apply Zlt_succ_le.
        rewrite Zlt_Qlt. exact C. }
      destruct (Qle_bool (len * (1 # 1200)) 1); lra.
    + rewrite Zle_Qle. change (inject_Z 10) with 10.
      destruct (Qle_bool (len * (1 # 1200)) 1) eqn:E; [apply Qle_bool_iff in E|]; lra.
  - intro H. rewrite Zlt_Qlt. change (inject_Z 0) with 0.
    destruct (Qle_bool (len * (1 # 1200)) 1) eqn:E; [|apply Qle_bool_false in E; lra]. lra.
Qed.

(** [getNoteFromLength(length)] gives a note for every length [>= 0], and
    [undefined] for a negative one. *)
Theorem getNoteFromLength_defined (len : Q) :
  (0 <= len -> exists note, getNoteFromLength len = Some note) /\
  (len < 0 -> getNoteFromLength len = None).
Proof.
  destruct (noteIndex_range len) as [H1 H2]. unfold getNoteFromLength. split.
  - intro H. destruct (H1 H) as [A B].
    destruct (Z.ltb_spec (noteIndex len) 0); [lia|].
    destruct (nth_error notes (Z.to_nat (noteIndex len))) as [n|] eqn:E; [eauto|].
    apply List.nth_error_None in E. simpl in E. lia.
  - intro H. specialize (H2 H). destruct (Z.ltb_spec (noteIndex len) 0); [reflexivity|lia].
Qed.

(** A longer line never gets a lower position in the scale, and every
    line of 1200 px or more plays the top note, A4. *)
Theorem getNoteFromLength_monotone (l1 l2 len : Q) :
  (l1 <= l2 -> (noteIndex l1 <= noteIndex l2)%Z) /\
  (1200 <= len -> getNoteFromLength len = Some "A4"%string).
Proof.
  split.
  - intro H. rewrite !noteIndex_floor. apply Qfloor_resp_le.
    apply Qmult_le_compat_r; [|discriminate]. apply Q.min_le_compat_r. lra.
  - intro H. assert (E : noteIndex len = 10%Z).
    { rewrite noteIndex_floor, Q.min_r by lra. reflexivity. }
    unfold getNoteFromLength. rewrite E. reflexivity.
Qed.

End Music.

(** ** Removing bodies from a world of distinct bodies *)

Lemma filter_filter_and {A} (f g : A -> bool) (l : list A) :
  List.filter f (List.filter g l) = List.filter (fun x => g x && f x) l.
Proof.
  induction l as [|x l IH]; simpl; [reflexivity|].
  destruct (g x); simpl; [destruct (f x); simpl|]; rewrite IH; reflexivity.
Qed.

Lemma NoDup_map_filter {A B} (f : A -> B) (p : A -> bool) (l : list A) :
  NoDup (map f l) -> NoDup (map f (List.filter p l)).
Proof.
  intro H. apply NoDup_ListNoDup. apply NoDup_ListNoDup in H.
  induction l as [|x l IH]; simpl; [constructor|].
  inversion H as [|? ? Hx Hl]; subst. destruct (p x); [|exact (IH Hl)].
  constructor; [|exact (IH Hl)]. intro Hin. apply Hx.
  apply in_map_iff in Hin as [y [Hy Hin]]. apply filter_In in Hin as [Hin _].
  rewrite <- Hy. apply in_map. exact Hin.
Qed.

Lemma existsb_ext {A} (f g : A -> bool) (l : list A) :
  (forall x, f x = g x) -> existsb f l = existsb g l.
Proof. intro H. induction l as [|x l IH]; simpl; [reflexivity|]. rewrite H, IH. reflexivity. Qed.

(** In a world of distinct bodies, [World.remove] drops every body with
    that identity. *)
Lemma removeBody_filter (b : Body) (w : list Body) :
  NoDup (map body_id w) ->
  removeBody b w = List.filter (fun b' => negb (Nat.eqb (body_id b') (body_id b))) w.
Proof.
  intro H. apply NoDup_ListNoDup in H.
  induction w as [|b' w IH]; simpl; [reflexivity|].
  inversion H as [|? ? Hx Hw]; subst.
  destruct (Nat.eqb (body_id b') (body_id b)) eqn:E; simpl; [|rewrite IH by exact Hw; reflexivity].
  apply Nat.eqb_eq in E. symmetry. apply List.forallb_filter_id. apply forallb_forall.
  intros x Hin. apply negb_true_iff, Nat.eqb_neq. intro Ex. apply Hx.
  rewrite E, <- Ex. apply in_map. exact Hin.
Qed.

(** Removing the bodies of a list of entities, one by one. *)
Lemma fold_removeBody {X} (step : list Body -> X -> list Body) (g : X -> option Body)
    (xs : list X) (w : list Body) :
  (forall w x, step w x = match g x with Some b => removeBody b w | None => w end) ->
  NoDup (map body_id w) ->
  fold_left step xs w =
  List.filter (fun bd => negb (existsb (fun x => match g x with
                                                 | Some b => Nat.eqb (body_id b) (body_id bd)
                                                 | None => false end) xs)) w.
Proof.
  intros Hs. revert w. induction xs as [|x xs IH]; intros w H; simpl.
  - symmetry. apply List.forallb_filter_id. apply forallb_forall. reflexivity.
  - rewrite Hs. destruct (g x) as [b|] eqn:Hg.
    + rewrite removeBody_filter by exact H.
      rewrite IH by (apply NoDup_map_filter; exact H).
      rewrite filter_filter_and. apply filter_ext. intros bd.
      rewrite (Nat.eqb_sym (body_id b) (body_id bd)).
      destruct (Nat.eqb (body_id bd) (body_id b)); reflexivity.
    + rewrite IH by exact H. reflexivity.
Qed.

(** ** Balls *)

(** [ball.getPosition().y]: the centre of the ball's body. *)
Definition body_y (b : Body) : Q :=
  match body_shape b with
  | Rect _ cy _ _ _ => cy
  | Circle _ cy _ => cy
  end.

(** [ball.isOffScreen(height)]. *)
Definition isOffScreen (height : Q) (b : Ball) : bool :=
  Qlt_bool (height + 200) (body_y (ball_body b)).

Definition ball_id (b : Ball) : nat := body_id (ball_body b).

(** [_removeFromArray(this.balls, ball)]: a ball object is known by its body. *)
Fixpoint removeBallFromArray (b : Ball) (l : list Ball) : list Ball :=
  match l with
  | [] => []
  | b' :: l' => if Nat.eqb (ball_id b') (ball_id b) then l' else b' :: removeBallFromArray b l'
  end.

(** [removeBall(ball)]. *)
Definition removeBall (ball : option Ball) (s : EM) : EM :=
  match ball with
  | None => s
  | Some b =>
      let s1 := set_world (removeBody (ball_body b) (world s)) s in
      set_balls (removeBallFromArray b (balls s1)) s1
  end.

(** The loop of [removeOffScreenBalls(screenHeight)], from index [i - 1]
    down to [0]. *)
Fixpoint removeOffScreen_loop (height : Q) (i : nat) (s : EM) : EM :=
  match i with
  | O => s
  | S i' =>
      let s1 :=
        match nth_error (balls s) i' with
        | Some b => if isOffScreen height b then removeBall (Some b) s else s
        | None => s
        end in
      removeOffScreen_loop height i' s1
  end.

Definition removeOffScreenBalls (height : Q) (s : EM) : EM :=
  removeOffScreen_loop height (length (balls s)) s.

(** [clearBalls()]. *)
Definition clearBalls (s : EM) : EM :=
  let w := fold_left (fun w b => removeBody (ball_body b) w) (balls s) (world s) in
  set_balls [] (set_world w s).

(** [clear()]. *)
Definition clear (s : EM) : EM := clearSpawners (clearBalls (clearLines s)).

Lemma removeBallFromArray_app (b : Ball) (l r : list Ball) :
  (forall x, In x l -> ball_id x <> ball_id b) ->
  removeBallFromArray b (l ++ b :: r) = l ++ r.
Proof.
  induction l as [|x l IH]; intro H; simpl.
  - rewrite Nat.eqb_refl. reflexivity.
  - destruct (Nat.eqb (ball_id x) (ball_id b)) eqn:E.
    + apply Nat.eqb_eq in E. exfalso. exact (H x (or_introl eq_refl) E).
    + rewrite IH; [reflexivity|]. intros y Hy. apply H. right. exact Hy.
Qed.

Lemma firstn_nth_error {A} (k : nat) (l : list A) (x : A) :
  nth_error l k = Some x -> firstn (S k) l = firstn k l ++ [x] /\ skipn k l = x :: skipn (S k) l.
Proof.
  revert l. induction k as [|k IH]; intros [|y l] H; simpl in *; try discriminate.
  - injection H as ->. split; reflexivity.
  - destruct (IH l H) as [H1 H2]. rewrite H1. split; [reflexivity|exact H2].
Qed.

Definition offscreen_owner (height : Q) (bs : list Ball) (bd : Body) : bool :=
  existsb (fun b => isOffScreen height b && Nat.eqb (ball_id b) (body_id bd)) bs.

Lemma removeOffScreen_loop_spec (height : Q) (B : list Ball) (i : nat) (s : EM) :
  NoDup (map ball_id B) -> NoDup (map body_id (world s)) -> (i <= length B)%nat ->
  balls s = firstn i B ++ List.filter (fun b => negb (isOffScreen height b)) (skipn i B) ->
  let s' := removeOffScreen_loop height i s in
  balls s' = List.filter (fun b => negb (isOffScreen height b)) B /\
  world s' = List.filter (fun bd => negb (offscreen_owner height (firstn i B) bd)) (world s) /\
  lines s' = lines s /\ spawners s' = spawners s /\ lheap s' = lheap s /\ sheap s' = sheap s.
Proof.
  intros HB. revert s. induction i as [|i IH]; intros s Hw Hi Hs; cbn [removeOffScreen_loop].
  - rewrite Hs. simpl. repeat split.
    symmetry. apply List.forallb_filter_id. apply forallb_forall. reflexivity.
  - destruct (nth_error B i) as [b|] eqn:Hb;
      [|apply List.nth_error_None in Hb; lia].
    destruct (firstn_nth_error i B b Hb) as [Hf Hsk].
    assert (Hn : nth_error (balls s) i = Some b).
    { rewrite Hs, Hf, <- app_assoc. rewrite nth_error_app2 by (rewrite length_firstn; lia).
      rewrite length_firstn. replace (i - Init.Nat.min i (length B))%nat with 0%nat by lia.
      reflexivity. }
    assert (Hsplit : B = firstn i B ++ b :: skipn (S i) B).
    { rewrite <- Hsk. symmetry. apply firstn_skipn. }
    assert (Hdist : forall x, In x (firstn i B) -> ball_id x <> ball_id b).
    { intros x Hx E. apply NoDup_ListNoDup in HB. rewrite Hsplit, map_app in HB.
      apply NoDup_remove_2 in HB. apply HB. apply in_or_app. left.
      rewrite <- E. apply in_map. exact Hx. }
    rewrite Hn. destruct (isOffScreen height b) eqn:Ho.
    + set (s1 := removeBall (Some b) s).
      assert (Hw1 : world s1 = List.filter (fun bd => negb (Nat.eqb (body_id bd) (ball_id b))) (world s)).
      { unfold s1, removeBall. simpl. apply removeBody_filter. exact Hw. }
      destruct (IH s1) as [H1 [H2 H3]].
      * rewrite Hw1. apply NoDup_map_filter. exact Hw.
      * lia.
      * unfold s1, removeBall. simpl. rewrite Hs, Hf, Hsk. simpl. rewrite Ho. simpl.
        rewrite <- app_assoc. simpl. apply removeBallFromArray_app. exact Hdist.
      * split; [exact H1|]. split; [|exact H3].
        rewrite H2, Hw1, filter_filter_and. apply filter_ext. intros bd.
        rewrite Hf. unfold offscreen_owner. rewrite existsb_app. simpl. rewrite Ho.
        destruct (Nat.eqb (body_id bd) (ball_id b)) eqn:E1;
          rewrite (Nat.eqb_sym (ball_id b) (body_id bd)), E1; simpl;
          destruct (existsb _ (firstn i B)); reflexivity.
    + destruct (IH s) as [H1 [H2 H3]]; [exact Hw|lia| |].
      * rewrite Hs, Hf, Hsk. simpl. rewrite Ho. simpl. rewrite <- app_assoc. reflexivity.
      * split; [exact H1|]. split; [|exact H3].
        rewrite H2. apply filter_ext. intros bd. rewrite Hf. unfold offscreen_owner.
        rewrite existsb_app. simpl. rewrite Ho. simpl. rewrite orb_false_r. reflexivity.
Qed.

(** [removeOffScreenBalls(screenHeight)] keeps exactly the balls that are
    not more than 200 px below the screen, in their order, and takes the
    bodies of the others out of the physics world (whose bodies are
    distinct), leaving every other body; lines and spawners are untouched.
    Removing from the end keeps the indices still to visit valid. *)
Theorem removeOffScreenBalls_spec (height : Q) (s : EM) :
  NoDup (map ball_id (balls s)) -> NoDup (map body_id (world s)) ->
  let s' := removeOffScreenBalls height s in
  balls s' = List.filter (fun b => negb (isOffScreen height b)) (balls s) /\
  world s' = List.filter (fun bd => negb (offscreen_owner height (balls s) bd)) (world s) /\
  lines s' = lines s /\ spawners s' = spawners s /\ lheap s' = lheap s /\ sheap s' = sheap s.
Proof.
  intros HB Hw. unfold removeOffScreenBalls.
  pose proof (removeOffScreen_loop_spec height (balls s) (length (balls s)) s HB Hw (le_n _))
    as H.
  destruct H as [H1 [H2 H3]].
  { rewrite firstn_all, skipn_all. simpl. rewrite app_nil_r. reflexivity. }
  split; [exact H1|]. split; [|exact H3]. rewrite H2, firstn_all. reflexivity.
Qed.

(** Does a line of the collection, or a ball, own this body? *)
Definition owned_body (s : EM) (bd : Body) : bool :=
  existsb (fun id => match lheap s !! id with
                     | Some l => Nat.eqb (body_id (lbody l)) (body_id bd)
                     | None => false end) (lines s) ||
  existsb (fun b => Nat.eqb (ball_id b) (body_id bd)) (balls s).

(** [clear()] empties the line, ball and spawner collections, and takes out
    of the physics world (whose bodies are distinct) exactly the bodies of
    the lines and balls it held: every other body stays, in its order. *)
Theorem clear_spec (s : EM) :
  NoDup (map body_id (world s)) ->
  let s' := clear s in
  lines s' = [] /\ balls s' = [] /\ spawners s' = [] /\
  world s' = List.filter (fun bd => negb (owned_body s bd)) (world s) /\
  lheap s' = lheap s /\ sheap s' = sheap s.
Proof.
  intro Hw. unfold clear, clearSpawners, clearBalls, clearLines. cbn.
  rewrite (fold_removeBody (X:=nat) _ (fun id => option_map lbody (lheap s !! id)))
    by (try exact Hw; intros w id; destruct (lheap s !! id); reflexivity).
  rewrite (fold_removeBody _ (fun b => Some (ball_body b)))
    by (try (apply NoDup_map_filter; exact Hw); intros w b; reflexivity).
  repeat split. rewrite filter_filter_and. apply filter_ext. intros bd.
  unfold owned_body. rewrite negb_orb.
  f_equal; f_equal; apply existsb_ext; intros x; try reflexivity.
  destruct (lheap s !! x); reflexivity.
Qed.

(** ** Area selection *)

(** The box test of [findEntitiesInArea]. *)
Definition in_area (ax1 ay1 ax2 ay2 x y : Q) : bool :=
  Qle_bool ax1 x && Qle_bool x ax2 && Qle_bool ay1 y && Qle_bool y ay2.

Definition line_in_area (ax1 ay1 ax2 ay2 : Q) (h : gmap nat Line) (id : nat) : bool :=
  match h !! id with
  | Some l => in_area ax1 ay1 ax2 ay2 ((x1 l + x2 l) / 2) ((y1 l + y2 l) / 2)
  | None => false
  end.

Definition spawner_in_area (ax1 ay1 ax2 ay2 : Q) (h : gmap nat Spawner) (id : nat) : bool :=
  match h !! id with
  | Some sp => in_area ax1 ay1 ax2 ay2 (sx sp) (sy sp)
  | None => false
  end.

(** [findEntitiesInArea(x1, y1, x2, y2)]: the two [forEach] loops pushing
    the lines whose centre, and the spawners whose position, is in the box. *)
Definition findEntitiesInArea (ax1 ay1 ax2 ay2 : Q) (s : EM) : list nat * list nat :=
  let selectedLines :=
    fold_left (fun acc id =>
      match lheap s !! id with
      | Some l => if in_area ax1 ay1 ax2 ay2 ((x1 l + x2 l) / 2) ((y1 l + y2 l) / 2)
                  then acc ++ [id] else acc
      | None => acc
      end) (lines s) [] in
  let selectedSpawners :=
    fold_left (fun acc id =>
      match sheap s !! id with
      | Some sp => if in_area ax1 ay1 ax2 ay2 (sx sp) (sy sp) then acc ++ [id] else acc
      | None => acc
      end) (spawners s) [] in
  (selectedLines, selectedSpawners).

(** [removeMultiple(lines, spawners)]. *)
Definition removeMultiple (ls ss : list nat) (s : EM) : EM :=
  let s1 := fold_left (fun s id => removeLine (Some id) s) ls s in
  fold_left (fun s id => removeSpawner (Some id) s) ss s1.

(** [moveMultiple(lines, spawners, deltaX, deltaY)]. *)
Definition moveLine_step (dx dy : Q) (s : EM) (id : nat) : EM :=
  match lheap s !! id with
  | Some l => updateLinePosition id (x1 l + dx) (y1 l + dy) (x2 l + dx) (y2 l + dy) s
  | None => s
  end.

Definition moveSpawner_step (dx dy : Q) (s : EM) (id : nat) : EM :=
  match sheap s !! id with
  | Some sp =>
      set_sheap (<[id := mkSpawner (sx sp + dx) (sy sp + dy) (lastSpawn sp) (interval sp)]>
                   (sheap s)) s
  | None => s
  end.

Definition moveMultiple (ls ss : list nat) (dx dy : Q) (s : EM) : EM :=
  fold_left (moveSpawner_step dx dy) ss (fold_left (moveLine_step dx dy) ls s).

Lemma fold_select {A} (step : list A -> A -> list A) (p : A -> bool) (l acc : list A) :
  (forall acc x, step acc x = if p x then acc ++ [x] else acc) ->
  fold_left step l acc = acc ++ List.filter p l.
Proof.
  intro Hs. revert acc. induction l as [|x l IH]; intros acc; simpl.
  - rewrite app_nil_r. reflexivity.
  - rewrite Hs, IH. destruct (p x); [rewrite <- app_assoc|]; reflexivity.
Qed.

Lemma findEntitiesInArea_filter (ax1 ay1 ax2 ay2 : Q) (s : EM) :
  findEntitiesInArea ax1 ay1 ax2 ay2 s =
  (List.filter (line_in_area ax1 ay1 ax2 ay2 (lheap s)) (lines s),
   List.filter (spawner_in_area ax1 ay1 ax2 ay2 (sheap s)) (spawners s)).
Proof.
  unfold findEntitiesInArea. f_equal.
  - rewrite (fold_select _ (line_in_area ax1 ay1 ax2 ay2 (lheap s))); [reflexivity|].
    intros acc id. unfold line_in_area. destruct (lheap s !! id); reflexivity.
  - rewrite (fold_select _ (spawner_in_area ax1 ay1 ax2 ay2 (sheap s))); [reflexivity|].
    intros acc id. unfold spawner_in_area. destruct (sheap s !! id); reflexivity.
Qed.

Lemma removeFromArray_filter (i : nat) (l : list nat) :
  NoDup l -> removeFromArray i l = List.filter (fun j => negb (Nat.eqb j i)) l.
Proof.
  induction l as [|k l IH]; simpl; [reflexivity|].
  intros Hnd. inversion Hnd as [|? ? Hk Hl]; subst.
  destruct (Nat.eqb k i) eqn:E; simpl; [|rewrite IH by exact Hl; reflexivity].
  apply Nat.eqb_eq in E. subst k. symmetry. apply List.forallb_filter_id.
  apply forallb_forall. intros j Hj. apply negb_true_iff, Nat.eqb_neq. intros ->.
  apply Hk, list_elem_of_In, Hj.
Qed.

Lemma removeLines_fold (ls : list nat) (s : EM) :
  Forall (fun id => is_Some (lheap s !! id)) ls -> NoDup (lines s) ->
  let s' := fold_left (fun s id => removeLine (Some id) s) ls s in
  lheap s' = lheap s /\ sheap s' = sheap s /\ spawners s' = spawners s /\
  lines s' = List.filter (fun j => negb (existsb (Nat.eqb j) ls)) (lines s).
Proof.
  rewrite List.Forall_forall. cbv zeta. revert s. induction ls as [|id ls IH]; intros s Hal Hnd; cbn [fold_left].
  - repeat split. symmetry. apply List.forallb_filter_id. apply forallb_forall. reflexivity.
  - destruct (removeLine_fields id s) as [Hlh [Hsh [Hsp [_ Hln]]]].
    destruct (Hal id (or_introl eq_refl)) as [l Hl]. rewrite Hl in Hln.
    destruct (IH (removeLine (Some id) s)) as [H1 [H2 [H3 H4]]].
    + intros j Hj. rewrite Hlh. apply Hal. right. exact Hj.
    + rewrite Hln. apply removeFromArray_NoDup. exact Hnd.
    + rewrite H1, H2, H3, Hlh, Hsh, Hsp. repeat split.
      rewrite H4, Hln, removeFromArray_filter by exact Hnd.
      rewrite filter_filter_and. apply filter_ext. intros j. cbn [existsb]. rewrite negb_orb. reflexivity.
Qed.

Lemma removeSpawners_fold (ss : list nat) (s : EM) :
  NoDup (spawners s) ->
  let s' := fold_left (fun s id => removeSpawner (Some id) s) ss s in
  lheap s' = lheap s /\ sheap s' = sheap s /\ lines s' = lines s /\
  spawners s' = List.filter (fun j => negb (existsb (Nat.eqb j) ss)) (spawners s).
Proof.
  cbv zeta. revert s. induction ss as [|id ss IH]; intros s Hnd; cbn [fold_left].
  - repeat split. symmetry. apply List.forallb_filter_id. apply forallb_forall. reflexivity.
  - destruct (IH (removeSpawner (Some id) s)) as [H1 [H2 [H3 H4]]].
    + apply removeFromArray_NoDup. exact Hnd.
    + rewrite H1, H2, H3. repeat split.
      rewrite H4. cbn [removeSpawner spawners set_spawners].
      rewrite removeFromArray_filter by exact Hnd.
      rewrite filter_filter_and. apply filter_ext. intros j. cbn [existsb]. rewrite negb_orb. reflexivity.
Qed.

Lemma existsb_eqb_filter (p : nat -> bool) (l : list nat) (j : nat) :
  In j l -> existsb (Nat.eqb j) (List.filter p l) = p j.
Proof.
  intro Hj. destruct (p j) eqn:Hp.
  - apply existsb_exists. exists j. split; [apply filter_In; split; assumption|].
    apply Nat.eqb_refl.
  - apply not_true_iff_false. intro H. apply existsb_exists in H as [x [Hx E]].
    apply filter_In in Hx as [_ Hx]. apply Nat.eqb_eq in E. subst x. congruence.
Qed.

Lemma filter_negb_filter {A} (p : A -> bool) (l : list A) :
  List.filter p (List.filter (fun x => negb (p x)) l) = [].
Proof.
  induction l as [|x l IH]; simpl; [reflexivity|].
  destruct (p x) eqn:E; simpl; [exact IH|]. rewrite E. exact IH.
Qed.

Lemma line_in_area_alloc (ax1 ay1 ax2 ay2 : Q) (h : gmap nat Line) (l : list nat) :
  Forall (fun id => is_Some (h !! id)) (List.filter (line_in_area ax1 ay1 ax2 ay2 h) l).
Proof.
  apply List.Forall_forall. intros id Hid. apply filter_In in Hid as [_ Hid].
  unfold line_in_area in Hid. destruct (h !! id); [eexists; reflexivity|discriminate].
Qed.

(** Deleting an area selection ([findEntitiesInArea] on the box, then
    [removeMultiple] on what it found, as [handleMouseUp] and
    [handleDeleteKey] do) keeps exactly the lines whose centre and the
    spawners whose position lie outside the box, in their order, with the
    line and spawner objects untouched; the same box then selects nothing. *)
Theorem deleteArea_spec (ax1 ay1 ax2 ay2 : Q) (s : EM) :
  NoDup (lines s) -> NoDup (spawners s) ->
  let '(ls, ss) := findEntitiesInArea ax1 ay1 ax2 ay2 s in
  let s' := removeMultiple ls ss s in
  lines s' = List.filter (fun id => negb (line_in_area ax1 ay1 ax2 ay2 (lheap s) id)) (lines s) /\
  spawners s' =
    List.filter (fun id => negb (spawner_in_area ax1 ay1 ax2 ay2 (sheap s) id)) (spawners s) /\
  lheap s' = lheap s /\ sheap s' = sheap s /\
  findEntitiesInArea ax1 ay1 ax2 ay2 s' = ([], []).
Proof.
  intros Hl Hs. rewrite findEntitiesInArea_filter. unfold removeMultiple.
  set (ls := List.filter (line_in_area ax1 ay1 ax2 ay2 (lheap s)) (lines s)).
  set (ss := List.filter (spawner_in_area ax1 ay1 ax2 ay2 (sheap s)) (spawners s)).
  destruct (removeLines_fold ls s (line_in_area_alloc _ _ _ _ _ _) Hl) as [H1 [H2 [H3 H4]]].
  set (s1 := fold_left (fun s id => removeLine (Some id) s) ls s) in *.
  destruct (removeSpawners_fold ss s1) as [G1 [G2 [G3 G4]]]; [rewrite H3; exact Hs|].
  set (s2 := fold_left (fun s id => removeSpawner (Some id) s) ss s1) in *.
  assert (El : lines s2 = List.filter (fun id => negb (line_in_area ax1 ay1 ax2 ay2 (lheap s) id)) (lines s)).
  { rewrite G3, H4. apply List.filter_ext_in. intros j Hj. unfold ls.
    rewrite existsb_eqb_filter by exact Hj. reflexivity. }
  assert (Es : spawners s2 = List.filter (fun id => negb (spawner_in_area ax1 ay1 ax2 ay2 (sheap s) id)) (spawners s)).
  { rewrite G4, H3. apply List.filter_ext_in. intros j Hj. unfold ss.
    rewrite existsb_eqb_filter by exact Hj. reflexivity. }
  assert (Eh : lheap s2 = lheap s) by (rewrite G1; exact H1).
  assert (Esh : sheap s2 = sheap s) by (rewrite G2; exact H2).
  split; [exact El|]. split; [exact Es|]. split; [exact Eh|]. split; [exact Esh|].
  rewrite findEntitiesInArea_filter, El, Es, Eh, Esh, !filter_negb_filter. reflexivity.
Qed.

(** ** Moving a selection *)

Section Move.
Variables (dx dy : Q).

Lemma moveLine_fold (ls : list nat) (s : EM) :
  let s' := fold_left (moveLine_step dx dy) ls s in
  sheap s' = sheap s /\ lines s' = lines s /\ spawners s' = spawners s /\
  forall j, option_map lcoords (lheap s' !! j) =
            option_map (Nat.iter (count_occ Nat.eq_dec ls j)
                                 (map4 (fun v => v + dx) (fun v => v + dy)))
                       (option_map lcoords (lheap s !! j)).
Proof.
  revert s. induction ls as [|id ls IH]; intros s; simpl.
  - repeat split. intros j. destruct (lheap s !! j); reflexivity.
  - set (s1 := moveLine_step dx dy s id).
    destruct (IH s1) as [Hsh [Hln [Hsp Hj]]].
    assert (Hf : sheap s1 = sheap s /\ lines s1 = lines s /\ spawners s1 = spawners s).
    { unfold s1, moveLine_step. destruct (lheap s !! id) as [l|]; [|repeat split].
      destruct (updateLinePosition_fields id (x1 l + dx) (y1 l + dy) (x2 l + dx) (y2 l + dy) s)
        as [F1 [F2 [F3 _]]].
      repeat split; assumption. }
    destruct Hf as [F1 [F2 F3]].
    rewrite Hsh, Hln, Hsp, F1, F2, F3. repeat split.
    intros j. rewrite Hj. clear Hj Hsh Hln Hsp IH.
    unfold s1, moveLine_step. destruct (lheap s !! id) as [l|] eqn:Hl.
    + destruct (updateLinePosition_heap id (x1 l + dx) (y1 l + dy) (x2 l + dx) (y2 l + dy) s l Hl)
        as [bd [H _]].
      rewrite H. destruct (Nat.eq_dec id j) as [<-|Hne].
      * rewrite lookup_insert_eq, Hl. cbn [option_map]. rewrite Nat.iter_succ_r. reflexivity.
      * rewrite lookup_insert_ne by exact Hne. reflexivity.
    + destruct (Nat.eq_dec id j) as [<-|Hne]; [rewrite Hl; reflexivity|reflexivity].
Qed.

Lemma moveSpawner_fold (ss : list nat) (s : EM) :
  let s' := fold_left (moveSpawner_step dx dy) ss s in
  lheap s' = lheap s /\ lines s' = lines s /\ spawners s' = spawners s /\
  forall j, sheap s' !! j =
            option_map (fun sp => mkSpawner
                          (Nat.iter (count_occ Nat.eq_dec ss j) (fun v => v + dx) (sx sp))
                          (Nat.iter (count_occ Nat.eq_dec ss j) (fun v => v + dy) (sy sp))
                          (lastSpawn sp) (interval sp))
                       (sheap s !! j).
Proof.
  revert s. induction ss as [|id ss IH]; intros s; simpl.
  - repeat split. intros j. destruct (sheap s !! j) as [[]|]; reflexivity.
  - set (s1 := moveSpawner_step dx dy s id).
    destruct (IH s1) as [Hlh [Hln [Hsp Hj]]].
    assert (Hf : lheap s1 = lheap s /\ lines s1 = lines s /\ spawners s1 = spawners s).
    { unfold s1, moveSpawner_step. destruct (sheap s !! id); repeat split. }
    destruct Hf as [F1 [F2 F3]].
    rewrite Hlh, Hln, Hsp, F1, F2, F3. repeat split.
    intros j. rewrite Hj. clear Hj Hlh Hln Hsp IH.
    unfold s1, moveSpawner_step. destruct (sheap s !! id) as [sp|] eqn:Hs.
    + cbn [sheap set_sheap]. destruct (Nat.eq_dec id j) as [<-|Hne].
      * rewrite lookup_insert_eq, Hs. cbn [option_map sx sy lastSpawn interval].
        rewrite !Nat.iter_succ_r. reflexivity.
      * rewrite lookup_insert_ne by exact Hne. reflexivity.
    + destruct (Nat.eq_dec id j) as [<-|Hne]; [rewrite Hs; reflexivity|reflexivity].
Qed.

End Move.

Lemma moveMultiple_fields (ls ss : list nat) (dx dy : Q) (s : EM) :
  let s' := moveMultiple ls ss dx dy s in
  lines s' = lines s /\ spawners s' = spawners s /\
  (forall j, option_map lcoords (lheap s' !! j) =
            option_map (Nat.iter (count_occ Nat.eq_dec ls j)
                                 (map4 (fun v => v + dx) (fun v => v + dy)))
                       (option_map lcoords (lheap s !! j))) /\
  (forall j, sheap s' !! j =
            option_map (fun sp => mkSpawner
                          (Nat.iter (count_occ Nat.eq_dec ss j) (fun v => v + dx) (sx sp))
                          (Nat.iter (count_occ Nat.eq_dec ss j) (fun v => v + dy) (sy sp))
                          (lastSpawn sp) (interval sp))
                       (sheap s !! j)).
Proof.
  unfold moveMultiple.
  destruct (moveLine_fold dx dy ls s) as [A1 [A2 [A3 A4]]].
  set (s1 := fold_left (moveLine_step dx dy) ls s) in *.
  destruct (moveSpawner_fold dx dy ss s1) as [B1 [B2 [B3 B4]]].
  rewrite B2, B3, A2, A3. split; [reflexivity|]. split; [reflexivity|]. split.
  - intros j. rewrite B1. apply A4.
  - intros j. rewrite B4, A1. reflexivity.
Qed.

Lemma iter_add (d : Q) (k : nat) (a : Q) :
  Nat.iter k (fun v => v + d) a == a + inject_Z (Z.of_nat k) * d.
Proof.
  induction k as [|k IH]; simpl Nat.iter.
  - simpl. ring.
  - rewrite IH, Nat2Z.inj_succ, <- Z.add_1_r, inject_Z_plus. ring.
Qed.

(** Two option values of line coordinates, equal as rationals. *)
Definition coords4_eqv (a b : option (Q * Q * Q * Q)) : Prop :=
  match a, b with
  | Some (a1, a2, a3, a4), Some (b1, b2, b3, b4) => a1 == b1 /\ a2 == b2 /\ a3 == b3 /\ a4 == b4
  | None, None => True
  | _, _ => False
  end.

(** Two option values of spawners, with the same position as rationals. *)
Definition spawner_eqv (a b : option Spawner) : Prop :=
  match a, b with
  | Some p, Some q => sx p == sx q /\ sy p == sy q /\
                      lastSpawn p = lastSpawn q /\ interval p = interval q
  | None, None => True
  | _, _ => False
  end.

(** Dragging a selection with [moveMultiple] in two steps, as the
    controller does on each mouse move, places every line and spawner where
    one [moveMultiple] by the summed deltas would (the deltas it adds up in
    [totalDeltaX] and [totalDeltaY]).  After the two steps the line and
    spawner collections are those of the original manager, every line and
    spawner object that existed still exists (and no other appears), and
    each spawner keeps its last emission time and interval. *)
Theorem moveMultiple_compose (ls ss : list nat) (dx1 dy1 dx2 dy2 : Q) (s : EM) :
  let s12 := moveMultiple ls ss dx2 dy2 (moveMultiple ls ss dx1 dy1 s) in
  let s3 := moveMultiple ls ss (dx1 + dx2) (dy1 + dy2) s in
  lines s12 = lines s3 /\ spawners s12 = spawners s3 /\
  (forall j, coords4_eqv (option_map lcoords (lheap s12 !! j)) (option_map lcoords (lheap s3 !! j))) /\
  (forall j, spawner_eqv (sheap s12 !! j) (sheap s3 !! j)) /\
  lines s12 = lines s /\ spawners s12 = spawners s /\
  (forall j, is_Some (lheap s12 !! j) <-> is_Some (lheap s !! j)) /\
  (forall j, option_map (fun sp => (lastSpawn sp, interval sp)) (sheap s12 !! j) =
             option_map (fun sp => (lastSpawn sp, interval sp)) (sheap s !! j)).
Proof.
  cbv zeta.
  destruct (moveMultiple_fields ls ss dx1 dy1 s) as [A1 [A2 [A3 A4]]].
  destruct (moveMultiple_fields ls ss dx2 dy2 (moveMultiple ls ss dx1 dy1 s)) as [B1 [B2 [B3 B4]]].
  destruct (moveMultiple_fields ls ss (dx1 + dx2) (dy1 + dy2) s) as [C1 [C2 [C3 C4]]].
  rewrite B1, B2, A1, A2, C1, C2. split; [reflexivity|]. split; [reflexivity|]. split; [|split].
  - intros j. rewrite B3, A3, C3. destruct (lheap s !! j) as [l|]; [|exact I].
    cbn [option_map]. unfold lcoords. rewrite !iter_map4.
    cbn. rewrite !iter_add. repeat split; ring.
  - intros j. rewrite B4, A4, C4. destruct (sheap s !! j) as [sp|]; [|exact I].
    cbn. rewrite !iter_add. repeat split; ring.
  - split; [reflexivity|]. split; [reflexivity|]. split.
    + intros j. pose proof (B3 j) as E. rewrite A3 in E.
      destruct (lheap s !! j) as [l|];
        destruct (lheap (moveMultiple ls ss dx2 dy2 (moveMultiple ls ss dx1 dy1 s)) !! j);
        cbn in E; try discriminate; split; intros Hj;
        first [eexists; reflexivity | destruct Hj as [? Hj]; discriminate].
    + intros j. rewrite B4, A4. destruct (sheap s !! j) as [sp|]; reflexivity.
Qed.

(** Moving a selection of distinct lines and spawners by [(dx, dy)] shifts
    each selected line's endpoints and each selected spawner's position by
    exactly [(dx, dy)] and leaves every other line and spawner object as it
    was; the collections are unchanged. *)
Theorem moveMultiple_shift (ls ss : list nat) (dx dy : Q) (s : EM) :
  NoDup ls -> NoDup ss ->
  let s' := moveMultiple ls ss dx dy s in
  lines s' = lines s /\ spawners s' = spawners s /\
  (forall j, option_map lcoords (lheap s' !! j) =
     option_map (fun l => if in_dec Nat.eq_dec j ls
                          then (x1 l + dx, y1 l + dy, x2 l + dx, y2 l + dy)
                          else lcoords l) (lheap s !! j)) /\
  (forall j, sheap s' !! j =
     option_map (fun sp => if in_dec Nat.eq_dec j ss
                           then mkSpawner (sx sp + dx) (sy sp + dy) (lastSpawn sp) (interval sp)
                           else sp) (sheap s !! j)).
Proof.
  intros Hl Hs. destruct (moveMultiple_fields ls ss dx dy s) as [A1 [A2 [A3 A4]]].
  split; [exact A1|]. split; [exact A2|].
  apply NoDup_ListNoDup in Hl, Hs. split.
  - intros j. rewrite A3. destruct (lheap s !! j) as [l|]; [|reflexivity]. cbn [option_map].
    destruct (in_dec Nat.eq_dec j ls) as [Hin|Hin].
    + rewrite (proj1 (NoDup_count_occ' Nat.eq_dec ls) Hl j Hin). reflexivity.
    + rewrite (count_occ_not_In Nat.eq_dec ls j) in Hin. rewrite Hin. reflexivity.
  - intros j. rewrite A4. destruct (sheap s !! j) as [sp|]; [|reflexivity]. cbn [option_map].
    destruct (in_dec Nat.eq_dec j ss) as [Hin|Hin].
    + rewrite (proj1 (NoDup_count_occ' Nat.eq_dec ss) Hs j Hin). reflexivity.
    + rewrite (count_occ_not_In Nat.eq_dec ss j) in Hin. rewrite Hin.
      destruct sp; reflexivity.
Qed.

(** ** [Line.distanceToPoint] *)

Lemma clamp_cases (t0 : Q) :
  (t0 <= 0 /\ Qmax 0 (Qmin 1 t0) == 0) \/
  (1 <= t0 /\ Qmax 0 (Qmin 1 t0) == 1) \/
  (0 <= t0 <= 1 /\ Qmax 0 (Qmin 1 t0) == t0).
Proof.
  destruct (Qlt_le_dec t0 0) as [H0|H0].
  - left. split; [lra|]. rewrite Q.min_r by lra. rewrite Q.max_l by lra. reflexivity.
  - destruct (Qlt_le_dec 1 t0) as [H1|H1].
    + right; left. split; [lra|]. rewrite Q.min_l by lra. rewrite Q.max_r by lra. reflexivity.
    + right; right. split; [lra|]. rewrite Q.min_r by lra. rewrite Q.max_r by lra. reflexivity.
Qed.

Lemma sq_nonneg (a : Q) : 0 <= a * a.
Proof. nra. Qed.

Lemma sq_sum_zero (a b : Q) : a * a + b * b == 0 -> a == 0 /\ b == 0.
Proof. intro H. split; nra. Qed.

Lemma Qeq_bool_false_neq (a b : Q) : Qeq_bool a b = false -> ~ a == b.
Proof. intros H E. apply Qeq_bool_iff in E. congruence. Qed.

Lemma distSq_le_aux (a b dx dy t0 t : Q) :
  0 < dx * dx + dy * dy -> a * dx + b * dy == t0 * (dx * dx + dy * dy) ->
  (t0 <= 0 /\ t == 0) \/ (1 <= t0 /\ t == 1) \/ (0 <= t0 <= 1 /\ t == t0) ->
  (a - t * dx) * (a - t * dx) + (b - t * dy) * (b - t * dy) <= a * a + b * b /\
  (a - t * dx) * (a - t * dx) + (b - t * dy) * (b - t * dy) <=
    (a - dx) * (a - dx) + (b - dy) * (b - dy).
Proof.
  intros HL Hw Hc. set (L := dx * dx + dy * dy) in *.
  assert (Hw2 : t0 * (a * dx + b * dy) == t0 * (t0 * L)) by (rewrite Hw; reflexivity).
  destruct Hc as [[Ht Ht']|[[Ht Ht']|[[Ht0 Ht1] Ht']]]; rewrite Ht'.
  - split; [nra|]. assert (0 <= - t0 * L) by nra. unfold L in *. nra.
  - split; [|unfold L in *; nra]. assert (0 <= (t0 - 1) * L) by nra. unfold L in *. nra.
  - assert (0 <= t0 * t0 * L) by (apply Qmult_le_0_compat; nra).
    assert (0 <= (1 - t0) * (1 - t0) * L) by (apply Qmult_le_0_compat; nra).
    unfold L in *. split; nra.
Qed.

(** The squared distance [Line.distanceToPoint] measures, from a point to
    the segment, is never negative and never more than the squared distance
    to either endpoint (also for a zero-length line). *)
Theorem distSqToPoint_le_endpoints (l : Line) (x y : Q) :
  0 <= distSqToPoint l x y /\
  distSqToPoint l x y <= (x - x1 l) * (x - x1 l) + (y - y1 l) * (y - y1 l) /\
  distSqToPoint l x y <= (x - x2 l) * (x - x2 l) + (y - y2 l) * (y - y2 l).
Proof.
  unfold distSqToPoint. cbv zeta. destruct (Qeq_bool _ 0) eqn:E.
  - apply Qeq_bool_iff, sq_sum_zero in E as [Ex Ey].
    pose proof (sq_nonneg (x - x1 l)). pose proof (sq_nonneg (y - y1 l)).
    split; [lra|]. split; [lra|].
    assert (Er1 : (x - x2 l) == (x - x1 l)) by lra. rewrite Er1.
    assert (Er2 : (y - y2 l) == (y - y1 l)) by lra. rewrite Er2. lra.
  - apply Qeq_bool_false_neq in E.
    set (dx := x2 l - x1 l) in *. set (dy := y2 l - y1 l) in *.
    assert (HL : 0 < dx * dx + dy * dy).
    { pose proof (sq_nonneg dx). pose proof (sq_nonneg dy).
      assert (HL0 : 0 <= dx * dx + dy * dy) by lra.
      apply Qle_lt_or_eq in HL0 as [HL0|HL0]; [exact HL0|]. exfalso. apply E. symmetry. exact HL0. }
    set (t0 := ((x - x1 l) * dx + (y - y1 l) * dy) / (dx * dx + dy * dy)).
    assert (Hw : (x - x1 l) * dx + (y - y1 l) * dy == t0 * (dx * dx + dy * dy)).
    { unfold t0. field. lra. }
    destruct (distSq_le_aux (x - x1 l) (y - y1 l) dx dy t0 (Qmax 0 (Qmin 1 t0)) HL Hw
                (clamp_cases t0)) as [H1 H2].
    assert (Er3 : (x - (x1 l + Qmax 0 (Qmin 1 t0) * dx)) == (x - x1 l - Qmax 0 (Qmin 1 t0) * dx)) by ring. rewrite Er3.
    assert (Er4 : (y - (y1 l + Qmax 0 (Qmin 1 t0) * dy)) == (y - y1 l - Qmax 0 (Qmin 1 t0) * dy)) by ring. rewrite Er4.
    pose proof (sq_nonneg (x - x1 l - Qmax 0 (Qmin 1 t0) * dx)).
    pose proof (sq_nonneg (y - y1 l - Qmax 0 (Qmin 1 t0) * dy)).
    split; [lra|]. split; [exact H1|].
    assert (Er5 : (x - x2 l) == (x - x1 l - dx)) by (unfold dx; ring). rewrite Er5.
    assert (Er6 : (y - y2 l) == (y - y1 l - dy)) by (unfold dy; ring). rewrite Er6. exact H2.
Qed.

(** A point of the segment, [(x1 + u * dx, y1 + u * dy)] with [0 <= u <= 1],
    is at distance zero from the line, so it is within any positive
    threshold of [findNearestLine]. *)
Theorem distSqToPoint_on_segment (l : Line) (u : Q) :
  0 <= u <= 1 ->
  distSqToPoint l (x1 l + u * (x2 l - x1 l)) (y1 l + u * (y2 l - y1 l)) == 0.
Proof.
  intros Hu. unfold distSqToPoint. destruct (Qeq_bool _ 0) eqn:E.
  - apply Qeq_bool_iff, sq_sum_zero in E as [Ex Ey].
    rewrite Ex, Ey. ring.
  - apply Qeq_bool_false_neq in E.
    set (dx := x2 l - x1 l) in *. set (dy := y2 l - y1 l) in *.
    assert (Ht0 : ((x1 l + u * dx - x1 l) * dx + (y1 l + u * dy - y1 l) * dy) / (dx * dx + dy * dy) == u).
    { field. exact E. }
    rewrite Ht0. rewrite Q.min_r by lra. rewrite Q.max_r by lra. ring.
Qed.

(** ** [ClearAllCommand] through the history *)

Definition long_enough (d : Q * Q * Q * Q) : bool :=
  let '(a, b, c, e) := d in negb (hypot_lt (c - a) (e - b) ENTITY_minLineLength).

Lemma addLines_fold (ld : list (Q * Q * Q * Q)) (s : EM) :
  forallb long_enough ld = true ->
  (forall i, In i (lines s) -> (i < next_obj s)%nat) ->
  let s' := fold_left (fun s '(a, b, c, d) => snd (addLine a b c d s)) ld s in
  line_view s' = line_view s ++ ld /\ spawner_view s' = spawner_view s /\
  (forall i, In i (lines s') -> (i < next_obj s')%nat).
Proof.
  cbv zeta. revert s. induction ld as [|[[[a b] c] d] ld IH]; intros s Hld Hlt; cbn [fold_left].
  - rewrite app_nil_r. repeat split. exact Hlt.
  - cbn [forallb long_enough] in Hld. apply andb_true_iff in Hld as [Hh Hld].
    apply negb_true_iff in Hh.
    destruct (addLine_accept a b c d s Hh) as [s1 [Ha [Hl1 [Hs1 [Hsh1 [Hno1 Hd1]]]]]].
    rewrite Ha. cbn [snd].
    destruct (IH s1 Hld) as [H1 [H2 H3]].
    { intros i Hi. rewrite Hno1. rewrite Hl1 in Hi. apply in_app_or in Hi as [Hi|[<-|[]]].
      - specialize (Hlt i Hi). lia.
      - lia. }
    split; [|split; [|exact H3]].
    + assert (Hv : line_view s1 = line_view s ++ [(a, b, c, d)]).
      2:{ rewrite H1, Hv, <- app_assoc. reflexivity. }
      unfold line_view. rewrite Hl1, omap_snoc, Hd1.
      destruct (Nat.eq_dec (next_obj s) (next_obj s)) as [_|C]; [|congruence].
      f_equal. apply omap_agree_in. intros i Hi. rewrite Hd1.
      destruct (Nat.eq_dec i (next_obj s)) as [->|_]; [specialize (Hlt _ Hi); lia|reflexivity].
    + rewrite H2. unfold spawner_view. rewrite Hs1, Hsh1. reflexivity.
Qed.

Lemma addSpawners_fold (sd : list (Q * Q)) (s : EM) :
  (forall i, In i (spawners s) -> (i < next_obj s)%nat) ->
  let s' := fold_left (fun s '(x, y) => snd (addSpawner x y None s)) sd s in
  spawner_view s' = spawner_view s ++ sd /\ line_view s' = line_view s.
Proof.
  cbv zeta. revert s. induction sd as [|[x y] sd IH]; intros s Hlt; cbn [fold_left].
  - rewrite app_nil_r. split; reflexivity.
  - destruct (addSpawner_fields x y s) as [s1 [Ha [Hl1 [Hs1 [Hlh1 [Hno1 Hd1]]]]]].
    rewrite Ha. cbn [snd].
    destruct (IH s1) as [H1 H2].
    { intros i Hi. rewrite Hno1. rewrite Hs1 in Hi. apply in_app_or in Hi as [Hi|[<-|[]]].
      - specialize (Hlt i Hi). lia.
      - lia. }
    split.
    + assert (Hv : spawner_view s1 = spawner_view s ++ [(x, y)]).
      2:{ rewrite H1, Hv, <- app_assoc. reflexivity. }
      unfold spawner_view. rewrite Hs1, omap_snoc, Hd1.
      destruct (Nat.eq_dec (next_obj s) (next_obj s)) as [_|C]; [|congruence].
      f_equal. apply omap_agree_in. intros i Hi. rewrite Hd1.
      destruct (Nat.eq_dec i (next_obj s)) as [->|_]; [specialize (Hlt _ Hi); lia|reflexivity].
    + rewrite H2. unfold line_view. rewrite Hl1, Hlh1. reflexivity.
Qed.

(** [clearLinesAndSpawners()] (a [ClearAllCommand] run through
    [history.execute]) empties the line and spawner collections and keeps
    the balls; [history.undo()] then brings back every line and spawner, in
    their order, with the same endpoints and positions, when every line is
    at least [minLineLength] long. *)
Theorem clearAll_undo_restores (s : EM) (h : History) :
  forallb long_enough (line_view s) = true -> (0 < maxHistorySize h)%nat ->
  let '(s1, h1) := history_execute (build NewClearAll s) s h in
  let '(ok, s2, _) := history_undo s1 h1 in
  lines s1 = [] /\ spawners s1 = [] /\ balls s1 = balls s /\
  ok = true /\ line_view s2 = line_view s /\ spawner_view s2 = spawner_view s.
Proof.
  intros Hld Hm.
  set (c := build NewClearAll s).
  destruct (history_execute_top c s h Hm) as [u Hu].
  pose proof (history_execute_state c s h) as Hst.
  destruct (history_execute c s h) as [s1 h1]. cbn [fst snd] in Hu, Hst.
  unfold c in Hu, Hst. cbn [build execute fst snd] in Hu, Hst. subst s1.
  unfold history_undo. rewrite Hu, pop_push. cbn [undo].
  set (s1 := clearSpawners (clearLines s)).
  assert (E1 : lines s1 = [] /\ spawners s1 = [] /\ balls s1 = balls s) by (repeat split).
  destruct E1 as [E1 [E2 E3]].
  assert (Hlt1 : forall i, In i (lines s1) -> (i < next_obj s1)%nat) by (rewrite E1; intros i []).
  destruct (addLines_fold (omap (line_data (lheap s)) (lines s)) s1 Hld Hlt1) as [H1 [H2 H3]].
  set (s2 := fold_left (fun s '(a, b, c, d) => snd (addLine a b c d s))
                       (omap (line_data (lheap s)) (lines s)) s1) in *.
  assert (Hs2 : spawners s2 = []).
  { unfold s2. clear -E2. revert E2. generalize s1. clear.
    induction (omap (line_data (lheap s)) (lines s)) as [|[[[a b] c] d] ld IH];
      intros s0 E; cbn [fold_left]; [exact E|].
    apply IH. unfold addLine. destruct (hypot_lt _ _ _); [exact E|].
    unfold newLine, alloc_body, alloc_obj. cbn. exact E. }
  assert (Hlt2 : forall i, In i (spawners s2) -> (i < next_obj s2)%nat) by (rewrite Hs2; intros i []).
  destruct (addSpawners_fold (omap (spawner_data (sheap s)) (spawners s)) s2 Hlt2) as [G1 G2].
  repeat split; try assumption.
  - assert (Hlv : line_view s1 = []) by (unfold line_view; rewrite E1; reflexivity).
    rewrite G2, H1, Hlv. reflexivity.
  - rewrite G1. assert (Hsv : spawner_view s2 = []).
    { rewrite H2. unfold spawner_view. rewrite E2. reflexivity. }
    rewrite Hsv. reflexivity.
Qed.

(** ** [RemoveSpawnerCommand] through the history *)

(** Removing a spawner with a [RemoveSpawnerCommand] (the controller's
    right click) and then [history.undo()] puts a new spawner at the end of
    the collection at the same position, but with [lastSpawn = 0] and the
    default interval of 1500 ms: an interval set with the mouse wheel is
    not restored. *)
Theorem removeSpawner_undo_resets (s : EM) (h : History) (id : nat) (sp : Spawner) :
  sheap s !! id = Some sp -> (0 < maxHistorySize h)%nat ->
  let '(s1, h1) := history_execute (build (NewRemoveSpawner id) s) s h in
  let '(ok, s2, _) := history_undo s1 h1 in
  spawners s1 = removeFromArray id (spawners s) /\
  ok = true /\ spawners s2 = removeFromArray id (spawners s) ++ [next_obj s] /\
  sheap s2 !! next_obj s = Some (mkSpawner (sx sp) (sy sp) 0 ENTITY_spawnerIntervalMs) /\
  lines s2 = lines s /\ lheap s2 = lheap s.
Proof.
  intros Hs Hm.
  set (c := build (NewRemoveSpawner id) s).
  destruct (history_execute_top c s h Hm) as [u Hu].
  pose proof (history_execute_state c s h) as Hst.
  destruct (history_execute c s h) as [s1 h1]. cbn [fst snd] in Hu, Hst.
  unfold c in Hu, Hst. cbn [build execute fst snd] in Hu, Hst. subst s1.
  unfold history_undo. rewrite Hu, pop_push. unfold spawner_obj. rewrite Hs. cbn [undo].
  unfold addSpawner, alloc_obj. cbn.
  split; [reflexivity|]. split; [reflexivity|]. split; [reflexivity|].
  split; [|split; reflexivity].
  rewrite lookup_insert_eq. reflexivity.
Qed.

(** ** Collision sounds and their cooldown ([game.js]) *)

Definition COLLISION_cooldownMs : Q := 70.
Definition COLLISION_minSpeedForSound : Q := 3 # 10.

(** [getBallAtBody(body)] and [getLineAtBody(body)]: [find] by body. *)
Definition getBallAtBody (s : EM) (bd : Body) : option Ball :=
  find (fun b => Nat.eqb (ball_id b) (body_id bd)) (balls s).

Definition getLineAtBody (s : EM) (bd : Body) : option nat :=
  find (fun id => match lheap s !! id with
                  | Some l => Nat.eqb (body_id (lbody l)) (body_id bd)
                  | None => false
                  end) (lines s).

(** The collision state of [Game]: [collisionCooldowns], [lastFrameTime]
    and [lastCooldownCleanup].  A key [`${ballBody.id}-${lineBody.id}`] is
    two decimal ids around a dash, so it determines the pair of ids and is
    represented by it. *)
Record Cooldowns := mkCooldowns {
  collisionCooldowns : gmap (nat * nat) Q;
  lastFrameTime : Q;
  lastCooldownCleanup : Q
}.

(** [handleCollision(ballBody, lineBody)], where [speed] is
    [ball.getVelocity()]: the key whose note is played, if any.
    [get(key) || 0] is the stored time, or [0] when there is none. *)
Definition handleCollision (s : EM) (ballBody lineBody : Body) (speed : Q) (g : Cooldowns)
  : option (nat * nat) * Cooldowns :=
  match getBallAtBody s ballBody, getLineAtBody s lineBody with
  | Some _, Some _ =>
      let key := (body_id ballBody, body_id lineBody) in
      let now := lastFrameTime g in
      let last := match collisionCooldowns g !! key with Some t => t | None => 0 end in
      if Qlt_bool COLLISION_cooldownMs (now - last) then
        if Qlt_bool COLLISION_minSpeedForSound speed then
          (Some key, mkCooldowns (<[key := now]> (collisionCooldowns g)) now (lastCooldownCleanup g))
        else (None, g)
      else (None, g)
  | _, _ => (None, g)
  end.

(** The start of [animate()]: [lastFrameTime = now], then every 5 s the
    entries older than one second are deleted. *)
Definition frame_start (now : Q) (g : Cooldowns) : Cooldowns :=
  if Qlt_bool 5000 (now - lastCooldownCleanup g) then
    let threshold := now - 1000 in
    mkCooldowns (filter (fun kt => Qlt_bool (snd kt) threshold = false) (collisionCooldowns g))
                now now
  else mkCooldowns (collisionCooldowns g) now (lastCooldownCleanup g).

(** What reaches the cooldown logic: a new frame at [performance.now()], or
    a [collisionStart] pair of a ball body and a static line body, with the
    manager as it is at that moment and the ball's speed. *)
Inductive GameEvent :=
| Frame (now : Q)
| Collision (s : EM) (ballBody lineBody : Body) (speed : Q).

(** Runs the events; the log lists each played note's key and time. *)
Fixpoint run_events (evs : list GameEvent) (g : Cooldowns) (log : list ((nat * nat) * Q))
  : Cooldowns * list ((nat * nat) * Q) :=
  match evs with
  | [] => (g, log)
  | Frame now :: evs' => run_events evs' (frame_start now g) log
  | Collision s bb lb speed :: evs' =>
      let '(played, g') := handleCollision s bb lb speed g in
      let log' := match played with
                  | Some key => log ++ [(key, lastFrameTime g)]
                  | None => log
                  end in
      run_events evs' g' log'
  end.

(** [performance.now()] never goes back. *)
Fixpoint frames_monotone (t : Q) (evs : list GameEvent) : bool :=
  match evs with
  | [] => true
  | Frame now :: evs' => Qle_bool t now && frames_monotone now evs'
  | Collision _ _ _ _ :: evs' => frames_monotone t evs'
  end.

Definition log_spaced (log : list ((nat * nat) * Q)) : Prop :=
  forall i j k t1 t2, (i < j)%nat -> nth_error log i = Some (k, t1) ->
  nth_error log j = Some (k, t2) -> COLLISION_cooldownMs < t2 - t1.

Definition cd_inv (g : Cooldowns) (log : list ((nat * nat) * Q)) : Prop :=
  (forall k t, In (k, t) log ->
     t <= lastFrameTime g /\
     match collisionCooldowns g !! k with
     | Some t' => t <= t'
     | None => t < lastFrameTime g - 1000
     end) /\
  (forall k t', collisionCooldowns g !! k = Some t' -> t' <= lastFrameTime g).

Lemma log_spaced_snoc (log : list ((nat * nat) * Q)) (k : (nat * nat)) (t : Q) :
  log_spaced log -> (forall t1, In (k, t1) log -> COLLISION_cooldownMs < t - t1) ->
  log_spaced (log ++ [(k, t)]).
Proof.
  intros Hs Hk i j k' t1 t2 Hij Hi Hj.
  assert (Hil : (i < length log)%nat).
  { destruct (Nat.lt_ge_cases i (length log)) as [H|H]; [exact H|].
    rewrite nth_error_app2 in Hj by lia. destruct (j - length log)%nat as [|[|n]] eqn:E;
      simpl in Hj; [lia|discriminate|destruct n; discriminate]. }
  rewrite nth_error_app1 in Hi by exact Hil.
  destruct (Nat.lt_ge_cases j (length log)) as [Hjl|Hjl].
  - rewrite nth_error_app1 in Hj by exact Hjl. exact (Hs i j k' t1 t2 Hij Hi Hj).
  - rewrite nth_error_app2 in Hj by exact Hjl.
    destruct (j - length log)%nat as [|n]; simpl in Hj; [|destruct n; discriminate].
    injection Hj as <- <-. apply Hk. eapply nth_error_In. exact Hi.
Qed.

Lemma frame_start_inv (now : Q) (g : Cooldowns) (log : list ((nat * nat) * Q)) :
  lastFrameTime g <= now -> cd_inv g log -> cd_inv (frame_start now g) log.
Proof.
  intros Hle [H1 H2]. unfold frame_start, cd_inv. cbv zeta.
  destruct (Qlt_bool 5000 _); cbn [collisionCooldowns lastFrameTime]; split.
  - intros k t Hin. destruct (H1 k t Hin) as [Ht Hm]. split; [lra|].
    rewrite map_lookup_filter. destruct (collisionCooldowns g !! k) as [t'|] eqn:E; simpl.
    + destruct (Qlt_bool t' (now - 1000)) eqn:Hlt; simpl.
      * apply Qlt_bool_iff in Hlt. lra.
      * exact Hm.
    + lra.
  - intros k t' Hk. rewrite map_lookup_filter in Hk.
    destruct (collisionCooldowns g !! k) as [t0|] eqn:E; simpl in Hk; [|discriminate].
    destruct (Qlt_bool t0 (now - 1000)); simpl in Hk; [discriminate|].
    injection Hk as <-. specialize (H2 k t0 E). lra.
  - intros k t Hin. destruct (H1 k t Hin) as [Ht Hm]. split; [lra|].
    destruct (collisionCooldowns g !! k); lra.
  - intros k t' Hk. specialize (H2 k t' Hk). lra.
Qed.

Lemma handleCollision_inv (s : EM) (bb lb : Body) (speed : Q) (g : Cooldowns)
    (log : list ((nat * nat) * Q)) :
  cd_inv g log -> log_spaced log ->
  let '(played, g') := handleCollision s bb lb speed g in
  let log' := match played with Some key => log ++ [(key, lastFrameTime g)] | None => log end in
  cd_inv g' log' /\ log_spaced log' /\ lastFrameTime g' = lastFrameTime g.
Proof.
  intros [H1 H2] Hsp. unfold handleCollision, cd_inv.
  destruct (getBallAtBody s bb), (getLineAtBody s lb); try (split; [split; assumption|split; [exact Hsp|reflexivity]]).
  set (key := (body_id bb, body_id lb) : nat * nat).
  destruct (Qlt_bool COLLISION_cooldownMs _) eqn:Hc; [|split; [split; assumption|split; [exact Hsp|reflexivity]]].
  destruct (Qlt_bool COLLISION_minSpeedForSound speed); [|split; [split; assumption|split; [exact Hsp|reflexivity]]].
  apply Qlt_bool_iff in Hc. cbn [collisionCooldowns lastFrameTime].
  split; [split|split; [|reflexivity]].
  - intros k t Hin. apply in_app_or in Hin as [Hin|[E|[]]].
    + destruct (H1 k t Hin) as [Ht Hm]. split; [exact Ht|].
      destruct (decide (k = key)) as [->|Hne].
      * rewrite lookup_insert_eq. exact Ht.
      * rewrite lookup_insert_ne by congruence. exact Hm.
    + injection E as <- <-. split; [apply Qle_refl|]. rewrite lookup_insert_eq. apply Qle_refl.
  - intros k t' Hk. destruct (decide (k = key)) as [->|Hne].
    + rewrite lookup_insert_eq in Hk. injection Hk as <-. apply Qle_refl.
    + rewrite lookup_insert_ne in Hk by congruence. exact (H2 k t' Hk).
  - apply log_spaced_snoc; [exact Hsp|]. intros t1 Hin.
    destruct (H1 key t1 Hin) as [Ht Hm].
    unfold COLLISION_cooldownMs in *.
    destruct (collisionCooldowns g !! key) as [t'|]; cbv iota in Hc, Hm; lra.
Qed.

(** Whatever frames and collisions the game goes through, with frame times
    that never decrease, two notes played under the same cooldown key,
    that is for the same ball body and the same line body
    ([`${ballBody.id}-${lineBody.id}`]), are more than [cooldownMs] (70 ms)
    apart: the cleanup only deletes entries older than one second.  The
    key is the body, not the line object: a line moved or resized gets a
    new body, and so a new key. *)
Theorem collision_cooldown_spacing (t0 : Q) (evs : list GameEvent) :
  frames_monotone t0 evs = true ->
  log_spaced (snd (run_events evs (mkCooldowns ∅ t0 0) [])).
Proof.
  intros Hm.
  cut (forall evs g log, frames_monotone (lastFrameTime g) evs = true ->
         cd_inv g log -> log_spaced log -> log_spaced (snd (run_events evs g log))).
  { intros H. apply (H evs (mkCooldowns ∅ t0 0) []); [exact Hm| |].
    - split; [intros k t []|intros k t' Hk; cbn [collisionCooldowns] in Hk; rewrite lookup_empty in Hk; discriminate].
    - intros i j k t1 t2 _ Hi. rewrite nth_error_nil in Hi. discriminate. }
  clear. intros evs. induction evs as [|[now|s bb lb speed] evs IH]; intros g log Hm Hi Hs;
    cbn [run_events snd]; [exact Hs| |].
  - cbn [frames_monotone] in Hm. apply andb_true_iff in Hm as [Hle Hm].
    apply Qle_bool_iff in Hle. apply IH; [|apply frame_start_inv; assumption|exact Hs].
    unfold frame_start. destruct (Qlt_bool 5000 _); exact Hm.
  - cbn [frames_monotone] in Hm.
    pose proof (handleCollision_inv s bb lb speed g log Hi Hs) as H.
    destruct (handleCollision s bb lb speed g) as [played g'].
    destruct H as [Hi' [Hs' Ht]]. apply IH; [rewrite Ht; exact Hm|exact Hi'|exact Hs'].
Qed.

(** ** Concrete scenes *)

(** Two lines, [(0,0)-(100,0)] and [(0,100)-(200,100)]. *)
Definition ex_lines : EM := snd (addLine 0 100 200 100 (snd (addLine 0 0 100 0 emptyEM))).
(** The same with a spawner at [(50,50)]. *)
Definition ex_scene : EM := snd (addSpawner 50 50 None ex_lines).
(** One line dragged down to a length of 10. *)
Definition ex_short : EM := updateLineEndpoint 0 EpEnd 10 0 (snd (addLine 0 0 100 0 emptyEM)).
(** One spawner at [(10,10)]. *)
Definition ex_spawner : EM := snd (addSpawner 10 10 None emptyEM).
(** A line and two balls, the second far below a 600 px screen. *)
Definition ex_balls : EM := addBall 0 1000 (addBall 0 0 (snd (addLine 0 0 100 0 emptyEM))).

Lemma handleBackspace_removeLastLine_witness :
  NoDup (lines ex_lines) /\
  fst (handleBackspace ex_lines (newHistory 100)) = removeLastLine ex_lines.
Proof.
  assert (Hn : NoDup (lines ex_lines)) by compute_done.
  split; [exact Hn|]. apply (handleBackspace_removeLastLine ex_lines (newHistory 100) Hn).
  compute_done.
Defined.

Lemma handleBackspace_undo_restores_witness :
  lheap ex_lines !! 1%nat = Some (line_obj ex_lines 1) /\
  (let '(s1, h1) := handleBackspace ex_lines (newHistory 100) in
   let '(ok, s2, _) := history_undo s1 h1 in
   ok = true /\ lines s2 = [0%nat] ++ [next_obj ex_lines] /\
   line_view s2 = line_view ex_lines /\ spawner_view s2 = spawner_view ex_lines).
Proof.
  split; [vm_compute; reflexivity|].
  apply (handleBackspace_undo_restores ex_lines (newHistory 100) [0%nat] 1 (line_obj ex_lines 1)).
  - apply WF_b_WF. vm_compute. reflexivity.
  - compute_done.
  - vm_compute. reflexivity.
  - vm_compute. reflexivity.
  - vm_compute. reflexivity.
  - simpl. lia.
Defined.

Lemma handleBackspace_undo_short_lost_witness :
  hypot_lt (x2 (line_obj ex_short 0) - x1 (line_obj ex_short 0))
           (y2 (line_obj ex_short 0) - y1 (line_obj ex_short 0)) ENTITY_minLineLength = true /\
  (let l := line_obj ex_short 0 in
   let '(s1, h1) := handleBackspace ex_short (newHistory 100) in
   let '(ok, s2, h2) := history_undo s1 h1 in
   ok = true /\ lines s2 = [] /\ lheap s2 = lheap ex_short /\ spawners s2 = spawners ex_short /\
   redoStack h2 = redoStack h1 ++ [RemoveLineCommand None (x1 l) (y1 l) (x2 l) (y2 l)]).
Proof.
  split; [vm_compute; reflexivity|]. intro l.
  apply (handleBackspace_undo_short_lost ex_short (newHistory 100) [] 0 l).
  - compute_done.
  - vm_compute. reflexivity.
  - vm_compute. reflexivity.
  - vm_compute. reflexivity.
  - simpl. lia.
Defined.

Lemma handleWheel_interval_witness :
  findNearestSpawner 12 12 50 ex_spawner = Some 0%nat /\
  (let sp := spawner_obj ex_spawner 0 in
   let s' := handleWheel 2 12 12 ex_spawner in
   let target := (if Qeq_bool (interval sp) 0 then 1500 else interval sp) + 2 * 50 in
   (exists sp', sheap s' !! 0%nat = Some sp' /\
      sx sp' = sx sp /\ sy sp' = sy sp /\ lastSpawn sp' = lastSpawn sp /\
      100 <= interval sp' <= 5000 /\
      (100 <= target <= 5000 -> interval sp' == target)) /\
   (forall j, j <> 0%nat -> sheap s' !! j = sheap ex_spawner !! j) /\
   lheap s' = lheap ex_spawner /\ lines s' = lines ex_spawner /\
   spawners s' = spawners ex_spawner /\
   balls s' = balls ex_spawner /\ world s' = world ex_spawner).
Proof.
  assert (Hf : findNearestSpawner 12 12 50 ex_spawner = Some 0%nat) by (vm_compute; reflexivity).
  split; [exact Hf|]. intro sp.
  apply (handleWheel_interval 2 12 12 ex_spawner 0 sp Hf). vm_compute. reflexivity.
Defined.

Lemma PhysicsEngine_update_invariant_witness :
  let '(acc', n) := PhysicsEngine_update 20 1 in
  (n <= maxSubSteps)%nat /\ 0 <= acc' < fixedTimeStep.
Proof.
  apply (PhysicsEngine_update_invariant 20 1).
  - split; vm_compute; [discriminate|reflexivity].
  - vm_compute. discriminate.
Defined.

Lemma removeOffScreenBalls_spec_witness :
  let s' := removeOffScreenBalls 600 ex_balls in
  balls s' = List.filter (fun b => negb (isOffScreen 600 b)) (balls ex_balls) /\
  world s' = List.filter (fun bd => negb (offscreen_owner 600 (balls ex_balls) bd)) (world ex_balls) /\
  lines s' = lines ex_balls /\ spawners s' = spawners ex_balls /\
  lheap s' = lheap ex_balls /\ sheap s' = sheap ex_balls.
Proof. apply removeOffScreenBalls_spec; compute_done. Defined.

Lemma clear_spec_witness :
  let s := addBall 5 5 ex_scene in
  let s' := clear s in
  lines s' = [] /\ balls s' = [] /\ spawners s' = [] /\
  world s' = List.filter (fun bd => negb (owned_body s bd)) (world s) /\
  lheap s' = lheap s /\ sheap s' = sheap s.
Proof. apply clear_spec. compute_done. Defined.

Lemma deleteArea_spec_witness :
  let '(ls, ss) := findEntitiesInArea 0 (-10) 100 60 ex_scene in
  let s' := removeMultiple ls ss ex_scene in
  lines s' = List.filter (fun id => negb (line_in_area 0 (-10) 100 60 (lheap ex_scene) id)) (lines ex_scene) /\
  spawners s' =
    List.filter (fun id => negb (spawner_in_area 0 (-10) 100 60 (sheap ex_scene) id)) (spawners ex_scene) /\
  lheap s' = lheap ex_scene /\ sheap s' = sheap ex_scene /\
  findEntitiesInArea 0 (-10) 100 60 s' = ([], []).
Proof. apply deleteArea_spec; compute_done. Defined.

Lemma moveMultiple_shift_witness :
  let s' := moveMultiple [0%nat; 1%nat] [2%nat] 5 (-3) ex_scene in
  lines s' = lines ex_scene /\ spawners s' = spawners ex_scene /\
  (forall j, option_map lcoords (lheap s' !! j) =
     option_map (fun l => if in_dec Nat.eq_dec j [0%nat; 1%nat]
                          then (x1 l + 5, y1 l + -3, x2 l + 5, y2 l + -3)
                          else lcoords l) (lheap ex_scene !! j)) /\
  (forall j, sheap s' !! j =
     option_map (fun sp => if in_dec Nat.eq_dec j [2%nat]
                           then mkSpawner (sx sp + 5) (sy sp + -3) (lastSpawn sp) (interval sp)
                           else sp) (sheap ex_scene !! j)).
Proof. apply moveMultiple_shift; compute_done. Defined.

Lemma distSqToPoint_on_segment_witness :
  let l := line_obj ex_lines 1 in
  distSqToPoint l (x1 l + (1 # 2) * (x2 l - x1 l)) (y1 l + (1 # 2) * (y2 l - y1 l)) == 0.
Proof.
  intro l. apply (distSqToPoint_on_segment l (1 # 2)). split; vm_compute; discriminate.
Defined.

Lemma clearAll_undo_restores_witness :
  let '(s1, h1) := history_execute (build NewClearAll ex_scene) ex_scene (newHistory 100) in
  let '(ok, s2, _) := history_undo s1 h1 in
  lines s1 = [] /\ spawners s1 = [] /\ balls s1 = balls ex_scene /\
  ok = true /\ line_view s2 = line_view ex_scene /\ spawner_view s2 = spawner_view ex_scene.
Proof.
  apply (clearAll_undo_restores ex_scene (newHistory 100)); [vm_compute; reflexivity|simpl; lia].
Defined.

Lemma removeSpawner_undo_resets_witness :
  let sp := spawner_obj ex_scene 2 in
  let '(s1, h1) := history_execute (build (NewRemoveSpawner 2) ex_scene) ex_scene (newHistory 100) in
  let '(ok, s2, _) := history_undo s1 h1 in
  spawners s1 = removeFromArray 2 (spawners ex_scene) /\
  ok = true /\ spawners s2 = removeFromArray 2 (spawners ex_scene) ++ [next_obj ex_scene] /\
  sheap s2 !! next_obj ex_scene = Some (mkSpawner (sx sp) (sy sp) 0 ENTITY_spawnerIntervalMs) /\
  lines s2 = lines ex_scene /\ lheap s2 = lheap ex_scene.
Proof.
  intro sp. apply (removeSpawner_undo_resets ex_scene (newHistory 100) 2 sp);
    [vm_compute; reflexivity|simpl; lia].
Defined.

Lemma collision_cooldown_spacing_witness :
  let s := addBall 50 (-10) ex_lines in
  let bb := mkBody 2 (Circle 50 (-10) ballRadius) in
  let lb := lbody (line_obj s 0) in
  let evs := [Frame 100; Collision s bb lb 2; Frame 140; Collision s bb lb 2;
              Frame 200; Collision s bb lb 2] in
  snd (run_events evs (mkCooldowns ∅ 0 0) []) = [((2%nat, 0%nat), 100); ((2%nat, 0%nat), 200)] /\
  log_spaced (snd (run_events evs (mkCooldowns ∅ 0 0) [])).
Proof.
  intros s bb lb evs. split; [vm_compute; reflexivity|].
  apply (collision_cooldown_spacing 0 evs). vm_compute. reflexivity.
Defined.
